(** * ojluni_refresh_files: importing upstream files as two-commit sequences

    A shallow embedding of [tools/expected_upstream/ojluni_refresh_files.py]
    and the properties of its staleness filter, ref partitioner, commit
    builder and orchestrator. *)

From Stdlib Require Import Strings.String Strings.Ascii Strings.Byte.
From stdpp Require Import base option list gmap strings fin_maps sorting.

(** ** Data model *)

(** [ExpectedUpstreamEntry]: one row of the EXPECTED_UPSTREAM manifest. *)
Record ExpectedUpstreamEntry := Entry {
  dst_path : string;
  git_ref : string;
  src_path : string;
}.

Global Instance entry_eq_dec : EqDecision ExpectedUpstreamEntry.
Proof. solve_decision. Defined.

(** Blob content is raw bytes, as [data_stream.read()] returns them. *)
Abbreviation bytes := (list Byte.byte).

Global Instance byte_eq_dec : EqDecision Byte.byte := Byte.byte_eq_dec.

(** A git tree, seen through the files it holds: path of the blob to the
    blob's bytes.  The index of GitPython ([IndexFile.entries]) has the same
    shape, a flat dictionary keyed by path. *)
Abbreviation Tree := (gmap string bytes).

(** A commit object: its tree, its parents (ids, in order) and its message. *)
Record Commit := mkCommit {
  tree : Tree;
  parents : list nat;
  message : string;
}.

(** What the script prints; every constructor is one [print] of the source. *)
Inductive Printed :=
  | ErrReadingEntry (e : ExpectedUpstreamEntry)
      (* stderr: "ERROR: reading entry: {e}" *)
  | WarnTrackingBranch (tracking : string)
      (* "This script should only run on aosp/expected_upstream branch. ..." *)
  | ReadingExpectedUpstream
      (* "Reading EXPECTED_UPSTREAM file..." *)
  | NoNeedToUpdate
      (* "No need to update. All files are updated." *)
  | FollowingEntriesUpdated
      (* "The following entries will be updated from upstream" *)
  | OutdatedPath (p : string)
      (* "  {e.dst_path}" *)
  | NewMergeCommit (c : nat) (paths : string).
      (* "New merge commit {second_commit} contains:" and "  {str_dst_paths}" *)

(** The repository and the process around it.
    - [odb]: the commits of the object database; the id of a commit is its
      position, and creating a commit appends to the list;
    - [names]: what [repo.commit(rev)] resolves: tags, remote branches and
      hashes of the upstream history, none of which the script moves;
    - [head]: the commit of the checked-out branch ([repo.head.commit],
      [repo.active_branch.commit]);
    - [tracking]: [repo.active_branch.tracking_branch()], [None] when the
      branch tracks nothing, otherwise the name of the remote reference;
    - [index]: the live index [repo.index];
    - [worktree]: the files of the working tree, the process running in the
      repository root;
    - [printed]: the output so far, oldest first. *)
Record Repo := mkRepo {
  odb : list Commit;
  names : gmap string nat;
  head : nat;
  tracking : option string;
  index : Tree;
  worktree : gmap string bytes;
  printed : list Printed;
}.

(** Python exceptions the script can meet. *)
Inductive Exn :=
  | BadName (rev : string)        (* repo.commit: the revision does not resolve *)
  | BadObject (id : nat)          (* the object database has no such commit *)
  | KeyError (path : string)      (* tree.join / tree[...]: no such path *)
  | FileNotFound (path : string)  (* index.add: no such file in the working tree *)
  | IndexError                    (* entry_set[0] on an empty list *)
  | AttributeError.               (* None.name *)

(** ** A state and exception monad for the script *)

Inductive Result (A : Type) :=
  | Ok (a : A)
  | Raise (x : Exn).
Arguments Ok {A} a.
Arguments Raise {A} x.

Definition M (A : Type) : Type := Repo → Repo * Result A.

Definition ret {A} (a : A) : M A := λ r, (r, Ok a).
Definition raise {A} (x : Exn) : M A := λ r, (r, Raise x).
Definition bind {A B} (m : M A) (k : A → M B) : M B :=
  λ r, match m r with
       | (r', Ok a) => k a r'
       | (r', Raise x) => (r', Raise x)
       end.
Definition get : M Repo := λ r, (r, Ok r).
Definition modify (f : Repo → Repo) : M unit := λ r, (f r, Ok tt).
Definition lift_option {A} (x : Exn) (o : option A) : M A :=
  match o with Some a => ret a | None => raise x end.

(** [try: m except: handler; raise] *)
Definition try_except_reraise {A} (m : M A) (handler : M unit) : M A :=
  λ r, match m r with
       | (r', Ok a) => (r', Ok a)
       | (r', Raise x) =>
           match handler r' with
           | (r'', Ok _) => (r'', Raise x)
           | (r'', Raise y) => (r'', Raise y)
           end
       end.

Declare Scope script_scope.
Delimit Scope script_scope with script.
Notation "x <- m ;; k" := (bind m (λ x, k))
  (at level 100, m at next level, right associativity) : script_scope.
Notation "'let*' pat := m 'in' k" := (bind m (λ x, match x with pat => k end))
  (at level 100, pat pattern, m at next level, right associativity) : script_scope.
Notation "m ;; k" := (bind m (λ _, k))
  (at level 100, right associativity) : script_scope.
Local Open Scope script_scope.

(** [for x in l: body x] *)
Fixpoint for_each {A} (l : list A) (body : A → M unit) : M unit :=
  match l with
  | [] => ret tt
  | x :: l' => body x ;; for_each l' body
  end.

(** [for x in l: acc = body acc x], for a loop that builds up a local value. *)
Fixpoint fold_m {A S} (body : S → A → M S) (l : list A) (acc : S) : M S :=
  match l with
  | [] => ret acc
  | x :: l' => acc' <- body acc x ;; fold_m body l' acc'
  end.

(** [print(...)]: one more line of output, nothing else changes. *)
Definition with_output (p : Printed) (r : Repo) : Repo :=
  mkRepo (odb r) (names r) (head r) (tracking r) (index r) (worktree r)
         (printed r ++ [p]).

Definition print (p : Printed) : M unit := modify (with_output p).

(** ** The repository operations the script calls (GitPython) *)

(** [repo.commit(rev)]: the id and the commit [rev] resolves to. *)
Definition repo_commit (rev : string) : M (nat * Commit) :=
  r <- get ;;
  id <- lift_option (BadName rev) (names r !! rev) ;;
  c <- lift_option (BadObject id) (odb r !! id) ;;
  ret (id, c).

(** [repo.head.commit] and [repo.active_branch.commit]. *)
Definition head_commit : M (nat * Commit) :=
  r <- get ;;
  c <- lift_option (BadObject (head r)) (odb r !! head r) ;;
  ret (head r, c).

(** [tree.join(path)] and [tree[path]], followed by [data_stream.read()]. *)
Definition tree_join (t : Tree) (path : string) : M bytes :=
  lift_option (KeyError path) (t !! path).

(** Modelled from the spec: [has_file_in_tree] of [common_util], which is not
    among the sources: whether the path exists in the tree. *)
Definition has_file_in_tree (path : string) (t : Tree) : bool :=
  bool_decide (is_Some (t !! path)).

(** ** Ref Partitioner *)

(** A Python [dict] keeps its keys in insertion order, and
    [partition_entries_by_ref] returns [list(result_map.values())]: the order
    is part of the result, so the dictionary is an association list with
    unique keys. *)
Module Dict.
Section Ops.
Context {V : Type}.

(** [d.get(k)] *)
Fixpoint get (d : list (string * V)) (k : string) : option V :=
  match d with
  | [] => None
  | (k', v) :: d' => if decide (k = k') then Some v else get d' k
  end.

(** [d[k] = v]: replaces in place, or appends a new key. *)
Fixpoint set (d : list (string * V)) (k : string) (v : V) : list (string * V) :=
  match d with
  | [] => [(k, v)]
  | (k', v') :: d' =>
      if decide (k = k') then (k, v) :: d' else (k', v') :: set d' k v
  end.

(** The value stored at [k] mutated in place by [f]. *)
Fixpoint alter (f : V → V) (d : list (string * V)) (k : string) : list (string * V) :=
  match d with
  | [] => []
  | (k', v) :: d' =>
      if decide (k = k') then (k', f v) :: d' else (k', v) :: alter f d' k
  end.

(** [d.values()] *)
Definition values (d : list (string * V)) : list V := d.*2.
End Ops.
End Dict.

(** One turn of the loop of [partition_entries_by_ref]. *)
Definition partition_step (result_map : list (string * list ExpectedUpstreamEntry))
    (e : ExpectedUpstreamEntry) : list (string * list ExpectedUpstreamEntry) :=
  let result_map :=
    match Dict.get result_map (git_ref e) with
    | None => Dict.set result_map (git_ref e) []
    | Some _ => result_map
    end in
  Dict.alter (λ l, l ++ [e]) result_map (git_ref e).

Definition partition_entries_by_ref (entries : list ExpectedUpstreamEntry)
    : list (list ExpectedUpstreamEntry) :=
  Dict.values (foldl partition_step [] entries).

(** ** Staleness Filter *)

(** The body of the loop of [validate_and_remove_updated_entries]: the
    [try] block for one entry, and the [except] that reports it and re-raises. *)
Definition validate_entry (head_tree : Tree) (result : list ExpectedUpstreamEntry)
    (e : ExpectedUpstreamEntry) : M (list ExpectedUpstreamEntry) :=
  try_except_reraise
    (let* (_, commit) := repo_commit (git_ref e) in
     source_blob <- tree_join (tree commit) (src_path e) ;;
     if negb (has_file_in_tree (dst_path e) head_tree) then
       ret (result ++ [e])
     else
       dst_blob <- tree_join head_tree (dst_path e) ;;
       if bool_decide (source_blob ≠ dst_blob) then ret (result ++ [e])
       else ret result)
    (print (ErrReadingEntry e)).

Definition validate_and_remove_updated_entries
    (entries : list ExpectedUpstreamEntry) : M (list ExpectedUpstreamEntry) :=
  let* (_, head_c) := head_commit in
  let head_tree := tree head_c in
  fold_m (validate_entry head_tree) entries [].

(** ** Commit messages *)

Definition LF : string := String "010" EmptyString.

(** [str.split("/")] *)
Fixpoint split_slash (s : string) : list string :=
  match s with
  | EmptyString => [EmptyString]
  | String c s' =>
      if decide (c = "/"%char) then EmptyString :: split_slash s'
      else match split_slash s' with
           | [] => [String c EmptyString]
           | x :: xs => String c x :: xs
           end
  end.

(** [PurePath.name]: the last component of the path, empty and "."
    components dropped as [pathlib] does when it parses. *)
Definition path_name (p : string) : string :=
  List.last
    (List.filter (λ x, negb (String.eqb x EmptyString) && negb (String.eqb x "."%string))
                 (split_slash p))
    EmptyString.

(** [str.rfind(c)], [None] for -1. *)
Fixpoint rfind (c : ascii) (s : string) : option nat :=
  match s with
  | EmptyString => None
  | String a s' =>
      match rfind c s' with
      | Some i => Some (S i)
      | None => if decide (a = c) then Some 0 else None
      end
  end.

(** [PurePath.stem]: the name without its last suffix;
    [i = name.rfind("."); name[:i] if 0 < i < len(name) - 1 else name]. *)
Definition path_stem (p : string) : string :=
  let name := path_name p in
  match rfind "."%char name with
  | Some i =>
      if (0 <? i) && (i <? String.length name - 1) then String.substring 0 i name
      else name
  | None => name
  end.

(** Modelled from the spec: [LIBCORE_DIR] of [common_util], which is not
    among the sources, is the root of the repository, so that
    [Path(__file__).relative_to(LIBCORE_DIR)] is the path of the tool in it. *)
Definition THIS_TOOL_PATH : string :=
  "tools/expected_upstream/ojluni_refresh_files.py"%string.

(** [MSG_FIRST_COMMIT.format(summary=..., ref=..., files=...)] *)
Definition MSG_FIRST_COMMIT (summary ref files : string) : string :=
  String.concat EmptyString
    [ "Import "; summary; " from "; ref; LF;
      LF;
      "List of files:"; LF;
      "  "; files; LF;
      LF;
      "Generated by "; THIS_TOOL_PATH;
      LF;
      "Test: N/A" ]%string.

(** [MSG_SECOND_COMMIT.format(summary=..., ref=..., files=...)] *)
Definition MSG_SECOND_COMMIT (summary ref files : string) : string :=
  String.concat EmptyString
    [ "Merge "; summary; " from "; ref; " into the ";
      " expected_upstream branch"; LF;
      LF;
      "List of files:"; LF;
      "  "; files; LF;
      LF;
      "Generated by "; THIS_TOOL_PATH;
      LF;
      "Test: N/A" ]%string.

(** ** Commit Builder *)

(** Pick an arbitrary existing commit with an empty tree *)
Definition EMPTY_COMMIT_SHA : string :=
  "d85bc16ba1cdcc20bec6fcbfe46dc90f9fcd2f78"%string.

(** [IndexFile.from_tree(repo, commit)]: a new index holding the commit's tree. *)
Definition IndexFile_from_tree (c : Commit) : Tree := tree c.

Definition with_worktree (wt : gmap string bytes) (r : Repo) : Repo :=
  mkRepo (odb r) (names r) (head r) (tracking r) (index r) wt (printed r).

(** [open(path, "wb").write(data)], after [mkdir(parents=True)]. *)
Definition write_file (path : string) (data : bytes) : M unit :=
  modify (λ r, with_worktree (<[path := data]> (worktree r)) r).

(** [index.add(path)]: stages the file as it is in the working tree. *)
Definition IndexFile_add_path (idx : Tree) (path : string) : M Tree :=
  r <- get ;;
  data <- lift_option (FileNotFound path) (worktree r !! path) ;;
  ret (<[path := data]> idx).

(** [index.add(blobs)] with [blobs = tree.traverse(blob_filter)]: every blob of
    the tree is put in the index at its path. *)
Definition IndexFile_add_blobs (idx : Tree) (t : Tree) : Tree :=
  map_fold (λ path data idx, <[path := data]> idx) idx t.

(** [index.commit(message, parent_commits, head)]: writes the index as a tree,
    creates the commit, and with [head=True] moves the branch to it. *)
Definition IndexFile_commit (idx : Tree) (msg : string) (parent_commits : list nat)
    (to_head : bool) : M (nat * Commit) :=
  r <- get ;;
  let c := mkCommit idx parent_commits msg in
  let id := length (odb r) in
  modify (λ r, mkRepo (odb r ++ [c]) (names r) (if to_head then id else head r)
                      (tracking r) (index r) (worktree r) (printed r)) ;;
  ret (id, c).

(** [repo.index.reset(paths=...)]: the entries of the live index at these
    paths are taken from HEAD; a path HEAD does not have is skipped. *)
Definition reset_paths (t : Tree) (paths : list string) (idx : Tree) : Tree :=
  foldl (λ idx p, match t !! p with
                  | Some b => <[p := b]> idx
                  | None => idx
                  end) idx paths.

Definition index_reset (paths : list string) : M unit :=
  let* (_, c) := head_commit in
  modify (λ r, mkRepo (odb r) (names r) (head r) (tracking r)
                      (reset_paths (tree c) paths (index r))
                      (worktree r) (printed r)).

(** The body of the first loop of [merge_files_and_create_commit]: the blob
    is read from upstream, written to the working tree, and staged from there. *)
Definition import_entry (upstream_commit : Commit) (first_index : Tree)
    (entry : ExpectedUpstreamEntry) : M Tree :=
  src_blob <- tree_join (tree upstream_commit) (src_path entry) ;;
  write_file (dst_path entry) src_blob ;;
  IndexFile_add_path first_index (dst_path entry).

Definition merge_files_and_create_commit
    (entry_set : list ExpectedUpstreamEntry) : M unit :=
  e0 <- lift_option IndexError (entry_set !! 0) ;;
  let ref := git_ref e0 in
  let* (upstream_id, upstream_commit) := repo_commit ref in
  let* (_, empty_commit) := repo_commit EMPTY_COMMIT_SHA in
  let first_index := IndexFile_from_tree empty_commit in
  first_index <- fold_m (import_entry upstream_commit) entry_set first_index ;;
  let dst_paths := dst_path <$> entry_set in
  let str_dst_paths := String.concat (LF +:+ "  ") dst_paths in
  let summary_msg :=
    if decide (length entry_set = 1) then path_stem (dst_path e0) else "files"%string in
  let msg := MSG_FIRST_COMMIT summary_msg ref str_dst_paths in
  let* (first_id, first_commit) := IndexFile_commit first_index msg [upstream_id] false in
  let* (prev_head, prev_commit) := head_commit in
  let second_index := IndexFile_from_tree prev_commit in
  let second_index := IndexFile_add_blobs second_index (tree first_commit) in
  let msg := MSG_SECOND_COMMIT summary_msg ref str_dst_paths in
  let* (second_id, _) := IndexFile_commit second_index msg [prev_head; first_id] true in
  index_reset dst_paths ;;
  print (NewMergeCommit second_id str_dst_paths).

(** ** Orchestrator *)

(** The first lines of [create_commits]: the branch the script runs on should
    track [aosp/expected_upstream]; [tracking_branch()] is [None] for a branch
    that tracks nothing, and [.name] of [None] raises. *)
Definition check_tracking_branch : M unit :=
  r <- get ;;
  current_tracking_branch_name <- lift_option AttributeError (tracking r) ;;
  if bool_decide (current_tracking_branch_name ≠ "aosp/expected_upstream"%string)
  then print (WarnTrackingBranch current_tracking_branch_name)
  else ret tt.

(** The rest of [create_commits]; [manifest] is what
    [ExpectedUpstreamFile().read_all_entries()] returns. *)
Definition import_outdated_entries (manifest : list ExpectedUpstreamEntry) : M unit :=
  print ReadingExpectedUpstream ;;
  let expected_upstream_entries := manifest in
  outdated_entries <- validate_and_remove_updated_entries expected_upstream_entries ;;
  match outdated_entries with
  | [] => print NoNeedToUpdate
  | _ =>
      print FollowingEntriesUpdated ;;
      for_each outdated_entries (λ e, print (OutdatedPath (dst_path e))) ;;
      let entry_sets_to_be_merged := partition_entries_by_ref outdated_entries in
      for_each entry_sets_to_be_merged merge_files_and_create_commit
  end.

(** [create_commits(repo)] *)
Definition create_commits (manifest : list ExpectedUpstreamEntry) : M unit :=
  check_tracking_branch ;;
  import_outdated_entries manifest.

(** ** Specification-side definitions *)

(** The distinct elements of a list, in the order of their first occurrence. *)
Fixpoint first_seen (l : list string) : list string :=
  match l with
  | [] => []
  | x :: l' => x :: filter (λ y, y ≠ x) (first_seen l')
  end.

(** The entries of one upstream ref, in the order of the input. *)
Definition entries_of_ref (r : string) (entries : list ExpectedUpstreamEntry)
    : list ExpectedUpstreamEntry :=
  filter (λ e, git_ref e = r) entries.

(** The tree of the commit the branch is at. *)
Definition head_tree (r : Repo) : option Tree :=
  tree <$> odb r !! head r.

(** The tree of the commit a revision resolves to. *)
Definition ref_tree (r : Repo) (rev : string) : option Tree :=
  id ← names r !! rev; tree <$> odb r !! id.

(** The upstream bytes of an entry: the blob at its source path in the tree
    of the commit its ref resolves to; [None] when the ref does not resolve
    or the tree has no such path. *)
Definition source_blob (r : Repo) (e : ExpectedUpstreamEntry) : option bytes :=
  t ← ref_tree r (git_ref e); t !! src_path e.

(** An entry is outdated against a tree when its destination is absent from
    the tree or holds other bytes than upstream. *)
Definition needs_update (r : Repo) (t : Tree) (e : ExpectedUpstreamEntry) : Prop :=
  t !! dst_path e = None ∨ t !! dst_path e ≠ source_blob r e.

Global Instance needs_update_dec r t e : Decision (needs_update r t e).
Proof. unfold needs_update. apply _. Defined.

(** The hard-coded commit is what its comment says: a commit with an empty
    tree. *)
Definition empty_commit_ok (r : Repo) : Prop :=
  ∀ id c, names r !! EMPTY_COMMIT_SHA = Some id → odb r !! id = Some c → tree c = ∅.

(** The files of a group laid over a tree: every destination path takes the
    bytes of its source path in the tree [up], later entries winning. *)
Definition overlay (up : Tree) (entry_set : list ExpectedUpstreamEntry) (t : Tree) : Tree :=
  foldl (λ t e, match up !! src_path e with
                | Some b => <[dst_path e := b]> t
                | None => t
                end) t entry_set.

(** The summary and the file list both commit messages of a group carry. *)
Definition summary_of (entry_set : list ExpectedUpstreamEntry) : string :=
  match entry_set with
  | [e] => path_stem (dst_path e)
  | _ => "files"
  end.

Definition files_of (entry_set : list ExpectedUpstreamEntry) : string :=
  String.concat (LF +:+ "  ") (dst_path <$> entry_set).


(** The two commits [merge_files_and_create_commit] builds for a group, from
    the upstream commit [up] (id [up_id]), the tree [base] the first index
    starts from, and the branch tip [prev] (id [prev_id]). *)
Definition first_commit_of (up_id : nat) (up : Commit) (base : Tree) (ref : string)
    (entry_set : list ExpectedUpstreamEntry) : Commit :=
  mkCommit (overlay (tree up) entry_set base) [up_id]
           (MSG_FIRST_COMMIT (summary_of entry_set) ref (files_of entry_set)).

Definition second_commit_of (first_id : nat) (first : Commit) (prev_id : nat)
    (prev : Commit) (ref : string) (entry_set : list ExpectedUpstreamEntry) : Commit :=
  mkCommit (tree first ∪ tree prev) [prev_id; first_id]
           (MSG_SECOND_COMMIT (summary_of entry_set) ref (files_of entry_set)).


(** The repository after a group has been merged: the two commits are
    appended, the branch is at the second, the live index is reset at the
    destination paths, the working tree holds the imported files, and one
    line is printed. *)
Definition merged_repo (r : Repo) (up first second : Commit)
    (entry_set : list ExpectedUpstreamEntry) : Repo :=
  mkRepo (odb r ++ [first; second]) (names r) (S (length (odb r))) (tracking r)
         (reset_paths (tree second) (dst_path <$> entry_set) (index r))
         (overlay (tree up) entry_set (worktree r))
         (printed r ++ [NewMergeCommit (S (length (odb r))) (files_of entry_set)]).


(** An entry group: a non-empty list of entries that share the ref [ref]. *)
Definition is_group (ref : string) (entry_set : list ExpectedUpstreamEntry) : Prop :=
  entry_set ≠ [] ∧ Forall (λ e, git_ref e = ref) entry_set.

(** The hard-coded commit is in the repository and its tree is empty. *)
Definition empty_commit_present (r : Repo) : Prop :=
  ∃ id c, names r !! EMPTY_COMMIT_SHA = Some id ∧ odb r !! id = Some c ∧ tree c = ∅.

(** No later entry of the list writes the destination of the entry at [i]. *)
Definition last_writer (entry_set : list ExpectedUpstreamEntry) (i : nat) : Prop :=
  ∀ j e e', entry_set !! i = Some e → i < j → entry_set !! j = Some e' →
            dst_path e' ≠ dst_path e.


(** ** A small repository to run the script on *)

Definition ex_bytes (s : string) : bytes := list_byte_of_string s.

(** Upstream commit [1], reachable as ["jdk17u/jdk-17.0.6-ga"]. *)
Definition ex_ref : string := "jdk17u/jdk-17.0.6-ga".

Definition ex_upstream_tree : Tree :=
  <["src/java.base/share/classes/java/lang/String.java" := ex_bytes "class String { /* 17 */ }"]>
  (<["src/java.base/share/classes/java/lang/Object.java" := ex_bytes "class Object {}"]>
  (<["README" := ex_bytes "OpenJDK"]> ∅)).

(** The branch tip, commit [2]: [String.java] is stale, [Object.java] is not
    there yet. *)
Definition ex_head_tree : Tree :=
  <["ojluni/src/main/java/java/lang/String.java" := ex_bytes "class String { /* 11 */ }"]>
  (<["EXPECTED_UPSTREAM" := ex_bytes "manifest"]> ∅).

Definition ex_repo : Repo :=
  mkRepo [ mkCommit ∅ [] "Initial empty repository";
           mkCommit ex_upstream_tree [] "8297015";
           mkCommit ex_head_tree [] "expected_upstream tip" ]
         (<[EMPTY_COMMIT_SHA := 0]> (<[ex_ref := 1]> ∅))
         2 (Some "aosp/expected_upstream"%string) ex_head_tree ex_head_tree [].

Definition ex_string_entry : ExpectedUpstreamEntry :=
  Entry "ojluni/src/main/java/java/lang/String.java" ex_ref
        "src/java.base/share/classes/java/lang/String.java".

Definition ex_object_entry : ExpectedUpstreamEntry :=
  Entry "ojluni/src/main/java/java/lang/Object.java" ex_ref
        "src/java.base/share/classes/java/lang/Object.java".

(** A group of two entries, the later destination sorting first. *)
Definition ex_group : list ExpectedUpstreamEntry := [ex_string_entry; ex_object_entry].


(** The repository of the example without the hard-coded empty commit. *)
Definition ex_repo_no_empty_commit : Repo :=
  mkRepo (odb ex_repo) (<[ex_ref := 1]> ∅) 2 (tracking ex_repo)
         (index ex_repo) (worktree ex_repo) [].

(** The commit messages as the specification words them: the base name of
    the single file as summary, and the destination paths sorted. *)
Definition spec_summary (entry_set : list ExpectedUpstreamEntry) : string :=
  match entry_set with
  | [e] => path_name (dst_path e)
  | _ => "files"
  end.

Definition string_le (a b : string) : Prop := String.leb a b = true.

Global Instance string_le_dec : RelDecision string_le.
Proof. intros a b. unfold string_le. apply _. Defined.

Definition spec_files (entry_set : list ExpectedUpstreamEntry) : string :=
  String.concat (LF +:+ "  ") (merge_sort string_le (dst_path <$> entry_set)).

Definition spec_first_message (ref : string) (entry_set : list ExpectedUpstreamEntry)
    : string :=
  MSG_FIRST_COMMIT (spec_summary entry_set) ref (spec_files entry_set).

(** The message of the commit with id [id] after running [m] on [r]. *)
Definition message_after {A} (m : M A) (r : Repo) (id : nat) : option string :=
  message <$> odb (m r).1 !! id.


(** Two repositories with the same objects, names and branch tip: they differ
    at most in the index, the working tree and the output. *)
Definition same_git (r r' : Repo) : Prop :=
  odb r' = odb r ∧ names r' = names r ∧ head r' = head r.


(** An entry whose source path upstream does not have, and a manifest with
    it in the middle. *)
Definition ex_missing_entry : ExpectedUpstreamEntry :=
  Entry "ojluni/src/main/java/java/lang/Record.java" ex_ref
        "src/java.base/share/classes/java/lang/Record.java".

Definition ex_bad_manifest : list ExpectedUpstreamEntry :=
  [ex_string_entry; ex_missing_entry; ex_object_entry].


(** [r'] is [r] after some commits have been added: the names and the
    tracking branch are the same, and the object database has grown at its
    end. *)
Definition extends (r r' : Repo) : Prop :=
  names r' = names r ∧ tracking r' = tracking r ∧ ∃ new, odb r' = odb r ++ new.

(** Entries that write the same destination take the same upstream bytes. *)
Definition consistent (r : Repo) (entries : list ExpectedUpstreamEntry) : Prop :=
  ∀ e1 e2, e1 ∈ entries → e2 ∈ entries → dst_path e1 = dst_path e2 →
           source_blob r e1 = source_blob r e2.

(** The tree [t] holds, at the destination of every entry, its upstream
    bytes. *)
Definition up_to_date (r : Repo) (t : Tree) (entries : list ExpectedUpstreamEntry) : Prop :=
  ∀ e, e ∈ entries → t !! dst_path e = source_blob r e.

(** A manifest with two entries for one destination, from different sources. *)
Definition ex_clash_manifest : list ExpectedUpstreamEntry :=
  [ ex_string_entry;
    Entry "ojluni/src/main/java/java/lang/String.java" ex_ref
          "src/java.base/share/classes/java/lang/Object.java" ].


(** The example repository with the branch pointing at no commit. *)
Definition ex_repo_no_tip : Repo :=
  mkRepo (odb ex_repo) (names ex_repo) 7 (tracking ex_repo)
         (index ex_repo) (worktree ex_repo) [].

(** Nothing of the repository but its output differs between [r] and [r']. *)
Definition same_but_output (r r' : Repo) : Prop :=
  odb r' = odb r ∧ names r' = names r ∧ head r' = head r
  ∧ tracking r' = tracking r ∧ index r' = index r ∧ worktree r' = worktree r.


(** An entry of a second upstream ref, and a manifest whose entries
    alternate between the two refs. *)
Definition ex_other_ref : string := "jdk11u/jdk-11.0.13-ga".

Definition ex_other_entry : ExpectedUpstreamEntry :=
  Entry "ojluni/src/main/java/java/util/List.java" ex_other_ref
        "src/java.base/share/classes/java/util/List.java".

Definition ex_mixed_manifest : list ExpectedUpstreamEntry :=
  [ex_string_entry; ex_other_entry; ex_object_entry].


(** Nothing of the repository but its working tree differs between [r] and
    [r']. *)
Definition same_but_worktree (r r' : Repo) : Prop :=
  odb r' = odb r ∧ names r' = names r ∧ head r' = head r
  ∧ tracking r' = tracking r ∧ index r' = index r ∧ printed r' = printed r.

(** The exceptions of a lookup in the object database that finds nothing. *)
Definition lookup_error (x : Exn) : Prop :=
  match x with
  | BadName _ | BadObject _ | KeyError _ => True
  | _ => False
  end.

(** The example repository after its group has been merged, and the tree
    the branch is at then. *)
Definition ex_merged_repo : Repo :=
  (merge_files_and_create_commit ex_group ex_repo).1.

Definition ex_merged_tree : Tree :=
  default ∅ (head_tree ex_merged_repo).


(** The lines the commit builder prints for the groups [gs] on a repository
    of [n] commits: every group adds two commits, the second being the merge
    commit the line names. *)
Definition merge_lines (n : nat) (gs : list (list ExpectedUpstreamEntry)) : list Printed :=
  imap (λ k g, NewMergeCommit (n + 2 * k + 1) (files_of g)) gs.

(** The output of a run of [create_commits] that completes, on a repository
    of [n] commits whose branch tracks [b], [outdated] being the entries the
    filter has kept. *)
Definition transcript (b : string) (n : nat) (outdated : list ExpectedUpstreamEntry)
    : list Printed :=
  (if decide (b = "aosp/expected_upstream"%string) then [] else [WarnTrackingBranch b])
  ++ ReadingExpectedUpstream
  :: match outdated with
     | [] => [NoNeedToUpdate]
     | _ => FollowingEntriesUpdated
            :: ((λ e, OutdatedPath (dst_path e)) <$> outdated)
            ++ merge_lines n (partition_entries_by_ref outdated)
     end.


(** Whether the character occurs in the string. *)
Fixpoint mentions (c : ascii) (s : string) : bool :=
  match s with
  | EmptyString => false
  | String a s' => bool_decide (a = c) || mentions c s'
  end.


(** Two repositories with the same history that track the same branch: they
    differ at most in the live index, the working tree and the output. *)
Definition same_history (r r' : Repo) : Prop :=
  same_git r r' ∧ tracking r' = tracking r.

(** Two repositories that differ at most in their output and in the branch
    they track. *)
Definition same_files (r r' : Repo) : Prop :=
  same_git r r' ∧ index r' = index r ∧ worktree r' = worktree r.

(** A step of the script that keeps the relation [R] between repositories:
    from two related repositories it gives the same result, or raises the
    same exception, and leaves two related repositories. *)
Definition respects {A} (R : Repo → Repo → Prop) (m : M A) : Prop :=
  ∀ ra rb, R ra rb → R (m ra).1 (m rb).1 ∧ (m ra).2 = (m rb).2.

(** The repository after a commit has been created, the branch moved to it
    or not, and after the live index has been replaced. *)
Definition with_commit (c : Commit) (to_head : bool) (r : Repo) : Repo :=
  mkRepo (odb r ++ [c]) (names r) (if to_head then length (odb r) else head r)
         (tracking r) (index r) (worktree r) (printed r).

Definition with_index (idx : Tree) (r : Repo) : Repo :=
  mkRepo (odb r) (names r) (head r) (tracking r) idx (worktree r) (printed r).

(** The repository with its branch tracking [aosp/expected_upstream]. *)
Definition on_expected_upstream (r : Repo) : Repo :=
  mkRepo (odb r) (names r) (head r) (Some "aosp/expected_upstream"%string)
         (index r) (worktree r) (printed r).

(** The repository with other files staged and other files checked out. *)
Definition with_local (idx : Tree) (wt : gmap string bytes) (r : Repo) : Repo :=
  mkRepo (odb r) (names r) (head r) (tracking r) idx wt (printed r).

(** The example repository on a branch that tracks another remote branch. *)
Definition ex_repo_other_branch : Repo :=
  mkRepo (odb ex_repo) (names ex_repo) (head ex_repo) (Some "aosp/main"%string)
         (index ex_repo) (worktree ex_repo) [].


(** The id of the commit the branch is at after [k] groups have been merged
    into a repository of [n] commits whose branch was at [h]. *)
Definition tip_after (n h k : nat) : nat :=
  match k with
  | 0 => h
  | S k' => n + 2 * k' + 1
  end.


(** * Properties *)

(** ** The ordered dictionary *)

Section DictFacts.
Context {V : Type}.
Implicit Types (d : list (string * V)) (k : string) (ks : list string).

Lemma Dict_get_None d k : Dict.get d k = None ↔ k ∉ d.*1.
Proof.
  induction d as [|[k' v] d IH]; simpl.
  - split; [intros _; apply not_elem_of_nil | done].
  - rewrite not_elem_of_cons. case_decide; subst; [|tauto].
    split; [done | intros [? _]; done].
Qed.

Lemma Dict_set_fresh d k v : k ∉ d.*1 → Dict.set d k v = d ++ [(k, v)].
Proof.
  induction d as [|[k' v'] d IH]; simpl; [done|].
  rewrite not_elem_of_cons. intros [Hne Hnin].
  case_decide; [done|]. by rewrite IH.
Qed.

Lemma Dict_alter_app_fresh f d d' k :
  k ∉ d.*1 → Dict.alter f (d ++ d') k = d ++ Dict.alter f d' k.
Proof.
  induction d as [|[k' v'] d IH]; simpl; [done|].
  rewrite not_elem_of_cons. intros [Hne Hnin].
  case_decide; [done|]. by rewrite IH.
Qed.

(** A dictionary written as its keys and a function giving the values:
    altering one key changes the function at that key only. *)
Lemma Dict_alter_keyed f (g g' : string → V) ks k :
  NoDup ks →
  (∀ r, r ∈ ks → g' r = if decide (r = k) then f (g r) else g r) →
  Dict.alter f ((λ r, (r, g r)) <$> ks) k = (λ r, (r, g' r)) <$> ks.
Proof.
  induction ks as [|r ks IH]; simpl; [done|].
  intros Hnd Hg'. apply NoDup_cons in Hnd as [Hr Hnd].
  pose proof (Hg' r (list_elem_of_here _ _)) as Hgr.
  destruct (decide (k = r)) as [Hk|Hk].
  - subst r. rewrite decide_True in Hgr by done. rewrite Hgr. f_equal.
    apply list_fmap_ext. intros i r' Hr'. f_equal.
    apply list_elem_of_lookup_2 in Hr'.
    rewrite (Hg' r') by (by apply list_elem_of_further).
    rewrite decide_False; [done|]. intros ->. done.
  - rewrite decide_False in Hgr by (intros ->; done). rewrite Hgr. f_equal.
    apply IH; [done|]. intros r' Hr'. apply Hg'. by apply list_elem_of_further.
Qed.
End DictFacts.

(** ** Ref Partitioner *)

Lemma elem_of_first_seen (x : string) (l : list string) : x ∈ first_seen l ↔ x ∈ l.
Proof.
  induction l as [|a l IH]; simpl; [done|].
  rewrite !elem_of_cons, list_elem_of_filter, IH.
  destruct (decide (x = a)); naive_solver.
Qed.

Lemma NoDup_first_seen (l : list string) : NoDup (first_seen l).
Proof.
  induction l as [|a l IH]; simpl; [constructor|].
  apply NoDup_cons. split.
  - rewrite list_elem_of_filter. naive_solver.
  - by apply NoDup_filter.
Qed.

Lemma first_seen_snoc (l : list string) (x : string) :
  first_seen (l ++ [x]) = if decide (x ∈ l) then first_seen l else first_seen l ++ [x].
Proof.
  induction l as [|a l IH]; simpl; [done|].
  rewrite IH. destruct (decide (x ∈ l)) as [Hin|Hnin].
  - rewrite decide_True by (by apply list_elem_of_further). done.
  - rewrite filter_app. destruct (decide (x = a)) as [->|Hne].
    + rewrite decide_True by apply list_elem_of_here.
      rewrite filter_cons_False by naive_solver. by rewrite app_nil_r.
    + rewrite decide_False by (rewrite elem_of_cons; naive_solver).
      by rewrite filter_cons_True by done.
Qed.

Lemma entries_of_ref_snoc (r : string) (l : list ExpectedUpstreamEntry) e :
  entries_of_ref r (l ++ [e])
  = entries_of_ref r l ++ (if decide (git_ref e = r) then [e] else []).
Proof.
  unfold entries_of_ref. rewrite filter_app.
  destruct (decide (git_ref e = r)).
  - by rewrite filter_cons_True.
  - by rewrite filter_cons_False.
Qed.

Lemma entries_of_ref_absent (r : string) (l : list ExpectedUpstreamEntry) :
  r ∉ git_ref <$> l → entries_of_ref r l = [].
Proof.
  intros Hr. unfold entries_of_ref.
  induction l as [|e l IH]; [done|].
  rewrite fmap_cons, not_elem_of_cons in Hr. destruct Hr as [Hne Hr].
  rewrite filter_cons_False by done. by apply IH.
Qed.

(** The dictionary after the loop has seen [l]: one key per ref, in the order
    of first occurrence, holding the entries of that ref in input order. *)
Lemma partition_loop_state (l : list ExpectedUpstreamEntry) :
  foldl partition_step [] l
  = (λ r, (r, entries_of_ref r l)) <$> first_seen (git_ref <$> l).
Proof.
  induction l as [|e l IH] using rev_ind; [done|].
  rewrite foldl_app. simpl. rewrite IH. clear IH.
  rewrite fmap_app. simpl. rewrite first_seen_snoc.
  unfold partition_step.
  set (ks := first_seen (git_ref <$> l)).
  assert (Hkeys : ((λ r, (r, entries_of_ref r l)) <$> ks).*1 = ks).
  { rewrite <- list_fmap_compose. apply list_fmap_id. }
  destruct (decide (git_ref e ∈ git_ref <$> l)) as [Hin|Hnin].
  - destruct (Dict.get _ (git_ref e)) eqn:Hget.
    + apply Dict_alter_keyed; [apply NoDup_first_seen|].
      intros r _. rewrite entries_of_ref_snoc.
      destruct (decide (r = git_ref e)) as [->|Hne].
      * by rewrite decide_True.
      * rewrite decide_False by done. by rewrite app_nil_r.
    + apply Dict_get_None in Hget. rewrite Hkeys in Hget.
      exfalso. apply Hget. by apply elem_of_first_seen.
  - assert (Hfresh : git_ref e ∉ ks) by (unfold ks; by rewrite elem_of_first_seen).
    destruct (Dict.get _ (git_ref e)) eqn:Hget.
    + assert (Dict.get ((λ r, (r, entries_of_ref r l)) <$> ks) (git_ref e) ≠ None)
        as Hn by (by rewrite Hget).
      rewrite Dict_get_None, Hkeys in Hn. done.
    + rewrite Dict_set_fresh by (by rewrite Hkeys).
      rewrite Dict_alter_app_fresh by (by rewrite Hkeys).
      simpl. rewrite decide_True by done.
      rewrite fmap_app. simpl. f_equal.
      * apply list_fmap_ext. intros i r Hr. f_equal.
        rewrite entries_of_ref_snoc, decide_False, app_nil_r; [done|].
        intros Heq. apply Hfresh. rewrite Heq.
        by apply list_elem_of_lookup_2 in Hr.
      * rewrite entries_of_ref_snoc, decide_True by done.
        by rewrite entries_of_ref_absent.
Qed.

Lemma partition_entries_by_ref_groups (entries : list ExpectedUpstreamEntry) :
  partition_entries_by_ref entries
  = (λ r, entries_of_ref r entries) <$> first_seen (git_ref <$> entries).
Proof.
  unfold partition_entries_by_ref, Dict.values.
  rewrite partition_loop_state, <- list_fmap_compose. done.
Qed.

Lemma Dict_alter_snoc_perm (d : list (string * list ExpectedUpstreamEntry)) k e :
  k ∈ d.*1 →
  concat (Dict.values (Dict.alter (λ l, l ++ [e]) d k)) ≡ₚ e :: concat (Dict.values d).
Proof.
  unfold Dict.values.
  induction d as [|[k' v] d IH]; simpl.
  - intros H. by apply elem_of_nil in H.
  - intros Hin. case_decide as Hk; simpl.
    + rewrite <- (assoc_L (++)). simpl.
      by rewrite <- Permutation_middle.
    + apply elem_of_cons in Hin as [?|Hin]; [done|].
      rewrite IH by done. by rewrite <- Permutation_middle.
Qed.

Lemma partition_step_perm (d : list (string * list ExpectedUpstreamEntry)) e :
  concat (Dict.values (partition_step d e)) ≡ₚ e :: concat (Dict.values d).
Proof.
  unfold partition_step.
  destruct (Dict.get d (git_ref e)) eqn:Hget.
  - apply Dict_alter_snoc_perm.
    destruct (decide (git_ref e ∈ d.*1)) as [|Hn]; [done|].
    apply Dict_get_None in Hn. congruence.
  - apply Dict_get_None in Hget.
    rewrite Dict_set_fresh, Dict_alter_app_fresh by done.
    simpl. rewrite decide_True by done.
    unfold Dict.values. rewrite fmap_app, concat_app. simpl.
    by rewrite <- Permutation_cons_append.
Qed.

Lemma partition_loop_perm (l : list ExpectedUpstreamEntry) d :
  concat (Dict.values (foldl partition_step d l)) ≡ₚ concat (Dict.values d) ++ l.
Proof.
  revert d. induction l as [|e l IH]; intros d; simpl.
  - by rewrite app_nil_r.
  - rewrite IH, partition_step_perm. by rewrite <- Permutation_middle.
Qed.

(** C4. The groups of [partition_entries_by_ref] are non-empty, each shares
    one upstream ref, the groups come in the order in which their refs are
    first seen and each holds the entries of its ref in input order, their
    concatenation is a permutation of the input, and no entries give no
    groups.  The function is pure: it neither reads nor changes the
    repository. *)
Theorem partition_entries_by_ref_spec (entries : list ExpectedUpstreamEntry) :
  Forall (λ g, g ≠ []) (partition_entries_by_ref entries)
  ∧ Forall (λ g, ∃ r, Forall (λ e, git_ref e = r) g) (partition_entries_by_ref entries)
  ∧ partition_entries_by_ref entries
    = (λ r, filter (λ e, git_ref e = r) entries) <$> first_seen (git_ref <$> entries)
  ∧ concat (partition_entries_by_ref entries) ≡ₚ entries
  ∧ partition_entries_by_ref [] = [].
Proof.
  split_and!.
  - rewrite partition_entries_by_ref_groups. apply Forall_fmap, Forall_forall.
    intros r Hr. simpl. apply elem_of_first_seen, list_elem_of_fmap in Hr as (e & -> & He).
    intros Hnil.
    assert (e ∈ entries_of_ref (git_ref e) entries) as Hin
      by (by apply list_elem_of_filter).
    rewrite Hnil in Hin. by apply elem_of_nil in Hin.
  - rewrite partition_entries_by_ref_groups. apply Forall_fmap, Forall_forall.
    intros r _. exists r. apply Forall_forall. intros e He.
    by apply list_elem_of_filter in He as [? _].
  - apply partition_entries_by_ref_groups.
  - unfold partition_entries_by_ref. by rewrite partition_loop_perm.
  - done.
Qed.

(** ** The monad *)

Lemma bind_Ok {A B} (m : M A) (k : A → M B) r r' b :
  bind m k r = (r', Ok b) ↔ ∃ r1 a, m r = (r1, Ok a) ∧ k a r1 = (r', Ok b).
Proof.
  unfold bind. destruct (m r) as [r1 [a|x]]; split.
  - intros H. by exists r1, a.
  - by intros (? & ? & [= <- <-] & H).
  - intros [=].
  - by intros (? & ? & [=] & _).
Qed.

Lemma bind_step {A B} (m : M A) (k : A → M B) r r1 a :
  m r = (r1, Ok a) → bind m k r = k a r1.
Proof. intros H. unfold bind. by rewrite H. Qed.

Lemma bind_Raise {A B} (m : M A) (k : A → M B) r r' x :
  bind m k r = (r', Raise x) ↔
  m r = (r', Raise x) ∨ ∃ r1 a, m r = (r1, Ok a) ∧ k a r1 = (r', Raise x).
Proof.
  unfold bind. destruct (m r) as [r1 [a|y]]; split.
  - intros H. right. by exists r1, a.
  - intros [[=]|(? & ? & [= <- <-] & H)]. done.
  - intros [= <- <-]. by left.
  - intros [[= <- <-]|(? & ? & [=] & _)]. done.
Qed.

(** ** Staleness Filter *)

Lemma source_blob_Some r e s :
  source_blob r e = Some s ↔
  ∃ id c, names r !! git_ref e = Some id ∧ odb r !! id = Some c
          ∧ tree c !! src_path e = Some s.
Proof.
  unfold source_blob, ref_tree. split.
  - destruct (names r !! git_ref e) as [id|]; simpl; [|done].
    destruct (odb r !! id) as [c|] eqn:Hc; simpl; [|done].
    intros Hs. by exists id, c.
  - intros (id & c & -> & Hc & Hs). simpl. by rewrite Hc.
Qed.

Lemma validate_entry_resolved r t acc e s :
  source_blob r e = Some s →
  validate_entry t acc e r
  = (r, Ok (if decide (needs_update r t e) then acc ++ [e] else acc)).
Proof.
  intros Hs. pose proof Hs as (id & c & Hid & Hc & Hsrc)%source_blob_Some.
  unfold validate_entry, try_except_reraise, repo_commit, bind, get, tree_join,
    lift_option, ret, has_file_in_tree.
  rewrite Hid, Hc, Hsrc. simpl.
  destruct (t !! dst_path e) as [d|] eqn:Hd; simpl.
  - destruct (decide (s = d)) as [->|Hne].
    + rewrite bool_decide_false by (intros Hdd; by apply Hdd).
      rewrite decide_False; [done|].
      unfold needs_update. rewrite Hd, Hs. intros [|]; done.
    + rewrite bool_decide_true by done.
      rewrite decide_True; [done|].
      unfold needs_update. rewrite Hd, Hs. right. congruence.
  - rewrite decide_True; [done|]. by left.
Qed.

Lemma validate_entry_unresolved r t acc e :
  source_blob r e = None →
  ∃ x, validate_entry t acc e r = (with_output (ErrReadingEntry e) r, Raise x).
Proof.
  intros Hs.
  unfold validate_entry, try_except_reraise, repo_commit, bind, get, tree_join,
    lift_option, ret, raise, print, modify.
  unfold source_blob, ref_tree in Hs.
  destruct (names r !! git_ref e) as [id|]; simpl in *; [|eauto].
  destruct (odb r !! id) as [c|]; simpl in *; [|eauto].
  rewrite Hs. simpl. eauto.
Qed.

Lemma validate_loop_resolved r t entries acc :
  Forall (λ e, is_Some (source_blob r e)) entries →
  fold_m (validate_entry t) entries acc r
  = (r, Ok (acc ++ filter (needs_update r t) entries)).
Proof.
  revert acc. induction entries as [|e entries IH]; intros acc Hall; simpl.
  - by rewrite app_nil_r.
  - apply Forall_cons in Hall as [[s Hs] Hall].
    unfold bind. rewrite (validate_entry_resolved _ _ _ _ _ Hs).
    rewrite IH by done. destruct (decide (needs_update r t e)).
    + rewrite filter_cons_True by done. by rewrite <- (assoc_L (++)).
    + by rewrite filter_cons_False.
Qed.

Lemma validate_and_remove_updated_entries_ok r t entries :
  head_tree r = Some t →
  Forall (λ e, is_Some (source_blob r e)) entries →
  validate_and_remove_updated_entries entries r
  = (r, Ok (filter (needs_update r t) entries)).
Proof.
  intros Ht Hall. unfold validate_and_remove_updated_entries, head_commit.
  unfold head_tree in Ht.
  destruct (odb r !! head r) as [c|] eqn:Hc; [|done]. injection Ht as <-.
  unfold bind at 1. unfold bind at 1. unfold get, lift_option, bind, ret.
  rewrite Hc. simpl.
  by rewrite validate_loop_resolved.
Qed.

(** C2. When every entry resolves, the filter returns exactly the entries
    whose destination is absent from the tree of the branch tip or differs
    there from the upstream blob, in the order of the input; the others are
    dropped.  The repository is left as it was. *)
Theorem validate_and_remove_updated_entries_spec r t entries :
  head_tree r = Some t →
  Forall (λ e, is_Some (source_blob r e)) entries →
  validate_and_remove_updated_entries entries r
  = (r, Ok (filter (needs_update r t) entries)).
Proof. apply validate_and_remove_updated_entries_ok. Qed.

Lemma validate_and_remove_updated_entries_spec_witness :
  validate_and_remove_updated_entries ex_group ex_repo
  = (ex_repo, Ok (filter (needs_update ex_repo ex_head_tree) ex_group)).
Proof.
  apply (validate_and_remove_updated_entries_spec ex_repo ex_head_tree ex_group).
  - reflexivity.
  - compute_done.
Defined.

(** ** Commit Builder *)

Lemma lift_option_Ok {A} x (o : option A) r r' a :
  lift_option x o r = (r', Ok a) ↔ o = Some a ∧ r' = r.
Proof.
  destruct o; simpl; unfold ret, raise; split; try naive_solver.
Qed.

Lemma repo_commit_Ok rev r r' id c :
  repo_commit rev r = (r', Ok (id, c)) ↔
  names r !! rev = Some id ∧ odb r !! id = Some c ∧ r' = r.
Proof.
  unfold repo_commit, bind, get, lift_option, ret, raise.
  destruct (names r !! rev) as [id'|]; simpl; [|naive_solver].
  destruct (odb r !! id') as [c'|] eqn:Hc; simpl; [|naive_solver].
  split.
  - intros [= <- <- <-]. done.
  - intros ([= <-] & Hc' & ->). rewrite Hc in Hc'. by injection Hc' as ->.
Qed.

Lemma repo_commit_state rev r r' res : repo_commit rev r = (r', res) → r' = r.
Proof.
  unfold repo_commit, bind, get, lift_option, ret, raise.
  destruct (names r !! rev) as [id'|]; simpl; [|naive_solver].
  destruct (odb r !! id') as [c'|]; simpl; naive_solver.
Qed.

Lemma head_commit_Ok r r' id c :
  head_commit r = (r', Ok (id, c)) ↔
  id = head r ∧ odb r !! head r = Some c ∧ r' = r.
Proof.
  unfold head_commit, bind, get, lift_option, ret, raise.
  destruct (odb r !! head r) as [c'|]; simpl; naive_solver.
Qed.

Lemma IndexFile_add_blobs_union (idx t : Tree) : IndexFile_add_blobs idx t = t ∪ idx.
Proof.
  unfold IndexFile_add_blobs.
  apply (map_fold_weak_ind (λ res m, res = m ∪ idx)).
  - by rewrite (left_id_L ∅ (∪)).
  - intros p b m res _ ->. by rewrite insert_union_l.
Qed.

Lemma overlay_snoc up es e t :
  overlay up (es ++ [e]) t
  = match up !! src_path e with
    | Some b => <[dst_path e := b]> (overlay up es t)
    | None => overlay up es t
    end.
Proof. unfold overlay. by rewrite foldl_app. Qed.

Lemma import_entry_Ok up idx e r b :
  tree up !! src_path e = Some b →
  import_entry up idx e r
  = (with_worktree (<[dst_path e := b]> (worktree r)) r, Ok (<[dst_path e := b]> idx)).
Proof.
  intros Hb.
  unfold import_entry, IndexFile_add_path, write_file, tree_join, modify, get.
  unfold bind, lift_option, ret. rewrite Hb. simpl.
  by rewrite lookup_insert_eq.
Qed.

Lemma import_entry_Raise up idx e r :
  tree up !! src_path e = None →
  import_entry up idx e r = (r, Raise (KeyError (src_path e))).
Proof.
  intros Hb. unfold import_entry, tree_join, bind, lift_option, raise.
  by rewrite Hb.
Qed.

(** The first loop: every source path is in the upstream tree, the blobs
    end up in the index and in the working tree; or the loop raises, having
    touched the working tree only. *)
Lemma import_loop_Ok up es idx r :
  Forall (λ e, is_Some (tree up !! src_path e)) es →
  fold_m (import_entry up) es idx r
  = (with_worktree (overlay (tree up) es (worktree r)) r, Ok (overlay (tree up) es idx)).
Proof.
  revert idx r. induction es as [|e es IH]; intros idx r Hall; simpl.
  - unfold ret. by destruct r.
  - apply Forall_cons in Hall as [[b Hb] Hall].
    unfold bind. rewrite (import_entry_Ok _ _ _ _ _ Hb).
    rewrite (IH _ _ Hall). unfold overlay. simpl. by rewrite Hb.
Qed.

Lemma import_loop_Raise up es idx r :
  ¬ Forall (λ e, is_Some (tree up !! src_path e)) es →
  ∃ r' x, fold_m (import_entry up) es idx r = (r', Raise x)
          ∧ odb r' = odb r ∧ head r' = head r.
Proof.
  revert idx r. induction es as [|e es IH]; intros idx r Hall; simpl.
  - by destruct Hall.
  - unfold bind. destruct (tree up !! src_path e) as [b|] eqn:Hb.
    + rewrite (import_entry_Ok _ _ _ _ _ Hb).
      destruct (IH (<[dst_path e:=b]> idx)
                   (with_worktree (<[dst_path e:=b]> (worktree r)) r))
        as (r' & x & -> & Ho & Hh).
      { intros Hes. apply Hall. constructor; [by eexists|done]. }
      by exists r', x.
    + rewrite (import_entry_Raise _ _ _ _ Hb). by exists r, (KeyError (src_path e)).
Qed.

Lemma summary_of_eq entry_set e0 :
  entry_set !! 0 = Some e0 →
  (if decide (length entry_set = 1) then path_stem (dst_path e0) else "files"%string)
  = summary_of entry_set.
Proof.
  destruct entry_set as [|a [|b l]]; simpl; [done| |done].
  by intros [= ->].
Qed.

(** What a successful run of [merge_files_and_create_commit] has read and
    what it leaves behind. *)
Lemma merge_Ok_inv entry_set r r' :
  merge_files_and_create_commit entry_set r = (r', Ok tt) →
  ∃ e0 up_id up eid c_empty prev,
    entry_set !! 0 = Some e0
    ∧ names r !! git_ref e0 = Some up_id ∧ odb r !! up_id = Some up
    ∧ names r !! EMPTY_COMMIT_SHA = Some eid ∧ odb r !! eid = Some c_empty
    ∧ Forall (λ e, is_Some (tree up !! src_path e)) entry_set
    ∧ let first := first_commit_of up_id up (tree c_empty) (git_ref e0) entry_set in
      (odb r ++ [first]) !! head r = Some prev
      ∧ r' = merged_repo r up first
               (second_commit_of (length (odb r)) first (head r) prev
                                 (git_ref e0) entry_set)
               entry_set.
Proof.
  intros H. unfold merge_files_and_create_commit in H.
  apply bind_Ok in H as (r1 & e0 & He0 & H).
  apply lift_option_Ok in He0 as [He0 ->].
  apply bind_Ok in H as (r1 & [up_id up] & Hup & H).
  apply repo_commit_Ok in Hup as (Hn & Ho & ->).
  apply bind_Ok in H as (r1 & [eid c_empty] & Hem & H).
  apply repo_commit_Ok in Hem as (Hen & Heo & ->).
  apply bind_Ok in H as (r1 & idx1 & Hloop & H).
  destruct (decide (Forall (λ e, is_Some (tree up !! src_path e)) entry_set))
    as [Hall|Hnall].
  2:{ apply (import_loop_Raise _ _ (IndexFile_from_tree c_empty) r)
        in Hnall as (? & ? & Hr & _).
      rewrite Hr in Hloop. discriminate. }
  rewrite import_loop_Ok in Hloop by done. injection Hloop as <- <-.
  rewrite (summary_of_eq _ _ He0) in H.
  apply bind_Ok in H as (r2 & [first_id c1] & Hc1 & H).
  unfold IndexFile_commit, bind, get, modify, ret in Hc1. simpl in Hc1.
  injection Hc1 as <- <- <-.
  apply bind_Ok in H as (r3 & [prev_id prev] & Hprev & H).
  apply head_commit_Ok in Hprev as (-> & Hprev & ->). simpl in Hprev.
  apply bind_Ok in H as (r4 & [second_id c2] & Hc2 & H).
  unfold IndexFile_commit, bind, get, modify, ret in Hc2. simpl in Hc2.
  injection Hc2 as <- <- <-.
  apply bind_Ok in H as (r5 & [] & Hreset & H).
  unfold index_reset in Hreset.
  apply bind_Ok in Hreset as (r6 & [hid hc] & Hhead & Hreset).
  apply head_commit_Ok in Hhead as (-> & Hhead & ->). simpl in Hhead.
  unfold modify in Hreset. simpl in Hreset. injection Hreset as <-.
  unfold print, modify, with_output in H. simpl in H. injection H as <-.
  rewrite lookup_app_r in Hhead by done.
  rewrite Nat.sub_diag in Hhead. simpl in Hhead. injection Hhead as <-.
  exists e0, up_id, up, eid, c_empty, prev.
  split_and!; try done.
  unfold merged_repo, first_commit_of, second_commit_of, files_of,
    IndexFile_from_tree. simpl.
  rewrite IndexFile_add_blobs_union, <- (assoc_L (++)), length_app. simpl.
  rewrite Nat.add_1_r. done.
Qed.

Lemma merge_Ok entry_set r e0 up_id up eid c_empty prev :
  entry_set !! 0 = Some e0 →
  names r !! git_ref e0 = Some up_id → odb r !! up_id = Some up →
  names r !! EMPTY_COMMIT_SHA = Some eid → odb r !! eid = Some c_empty →
  Forall (λ e, is_Some (tree up !! src_path e)) entry_set →
  odb r !! head r = Some prev →
  let first := first_commit_of up_id up (tree c_empty) (git_ref e0) entry_set in
  merge_files_and_create_commit entry_set r
  = (merged_repo r up first
       (second_commit_of (length (odb r)) first (head r) prev (git_ref e0) entry_set)
       entry_set, Ok tt).
Proof.
  intros He0 Hn Ho Hen Heo Hall Hprev first.
  assert (repo_commit (git_ref e0) r = (r, Ok (up_id, up))) as Hup
    by (by apply repo_commit_Ok).
  assert (repo_commit EMPTY_COMMIT_SHA r = (r, Ok (eid, c_empty))) as Hem
    by (by apply repo_commit_Ok).
  unfold merge_files_and_create_commit.
  rewrite (bind_step _ _ r r e0) by (by rewrite He0).
  rewrite (bind_step _ _ _ _ _ Hup). cbv beta iota.
  rewrite (bind_step _ _ _ _ _ Hem). cbv beta iota.
  rewrite (bind_step _ _ _ _ _ (import_loop_Ok _ _ _ _ Hall)).
  rewrite (summary_of_eq _ _ He0).
  unfold IndexFile_commit, head_commit, index_reset, head_commit, print, modify,
    bind, get, lift_option, ret. simpl.
  rewrite (lookup_app_l_Some _ _ _ _ Hprev). simpl.
  rewrite lookup_app_r by done. rewrite Nat.sub_diag. simpl.
  unfold merged_repo, first, first_commit_of, second_commit_of, files_of,
    IndexFile_from_tree, with_output. simpl.
  rewrite IndexFile_add_blobs_union, <- (assoc_L (++)), length_app. simpl.
  rewrite Nat.add_1_r. done.
Qed.

Lemma overlay_lookup_other up es t p :
  p ∉ dst_path <$> es → overlay up es t !! p = t !! p.
Proof.
  induction es as [|e es IH] using rev_ind; [done|].
  rewrite fmap_app, not_elem_of_app. simpl. rewrite not_elem_of_cons.
  intros [Hes [Hne _]]. rewrite overlay_snoc.
  destruct (up !! src_path e); [rewrite lookup_insert_ne by done|]; by apply IH.
Qed.

Lemma overlay_lookup_last up es t i e :
  es !! i = Some e → last_writer es i →
  Forall (λ e, is_Some (up !! src_path e)) es →
  overlay up es t !! dst_path e = up !! src_path e.
Proof.
  revert i e. induction es as [|x es IH] using rev_ind; intros i e Hi Hlast Hall.
  - done.
  - apply Forall_app in Hall as [Hall [[b Hb] _]%Forall_cons].
    rewrite overlay_snoc, Hb.
    destruct (decide (i = length es)) as [->|Hne].
    + rewrite lookup_app_r, Nat.sub_diag in Hi by done. injection Hi as ->.
      by rewrite lookup_insert_eq.
    + assert (i < length es) as Hlt.
      { apply lookup_lt_Some in Hi. rewrite length_app in Hi. simpl in Hi. lia. }
      rewrite lookup_app_l in Hi by done.
      rewrite lookup_insert_ne.
      * apply (IH i); [done| |done].
        intros j e1 e' He1 Hij Hj.
        apply (Hlast j e1 e'); [|done|].
        -- by rewrite lookup_app_l.
        -- rewrite lookup_app_l; [done|]. by apply lookup_lt_Some in Hj.
      * apply (Hlast (length es) e x); [|done|].
        -- by rewrite lookup_app_l.
        -- by rewrite lookup_app_r, Nat.sub_diag.
Qed.

Lemma overlay_lookup_member up es t p :
  p ∈ dst_path <$> es →
  Forall (λ e, is_Some (up !! src_path e)) es →
  is_Some (overlay up es t !! p).
Proof.
  induction es as [|e es IH] using rev_ind.
  - intros H. by apply elem_of_nil in H.
  - rewrite fmap_app, elem_of_app. simpl. rewrite list_elem_of_singleton.
    intros Hp [Hall [[b Hb] _]%Forall_cons]%Forall_app.
    rewrite overlay_snoc, Hb.
    destruct (decide (p = dst_path e)) as [->|Hne].
    + rewrite lookup_insert_eq. by eexists.
    + rewrite lookup_insert_ne by done. apply IH; [|done].
      by destruct Hp.
Qed.

(** For the entries of a group, the blob read from the upstream commit of
    the group is the entry's upstream blob. *)
Lemma group_source_blob r ref es up_id up :
  Forall (λ e, git_ref e = ref) es →
  names r !! ref = Some up_id → odb r !! up_id = Some up →
  ∀ e, e ∈ es → source_blob r e = tree up !! src_path e.
Proof.
  intros Hg Hn Ho e He. rewrite Forall_forall in Hg.
  unfold source_blob, ref_tree. rewrite (Hg e He), Hn. simpl. by rewrite Ho.
Qed.

Lemma group_resolves r ref es :
  is_group ref es →
  Forall (λ e, is_Some (source_blob r e)) es →
  ∃ e0 up_id up,
    es !! 0 = Some e0 ∧ git_ref e0 = ref
    ∧ names r !! ref = Some up_id ∧ odb r !! up_id = Some up
    ∧ Forall (λ e, is_Some (tree up !! src_path e)) es.
Proof.
  intros [Hne Hg] Hall. destruct es as [|e0 es]; [done|].
  pose proof (Forall_inv Hg) as Href. simpl in Href.
  pose proof (Forall_inv Hall) as [s Hs]. simpl in Hs.
  apply source_blob_Some in Hs as (up_id & up & Hn & Ho & _).
  rewrite Href in Hn.
  exists e0, up_id, up. split_and!; try done.
  apply Forall_forall. intros e He.
  rewrite <- (group_source_blob r ref (e0 :: es) up_id up Hg Hn Ho e He).
  rewrite Forall_forall in Hall. by apply Hall.
Qed.

Lemma head_tree_Some r t :
  head_tree r = Some t ↔ ∃ c, odb r !! head r = Some c ∧ tree c = t.
Proof.
  unfold head_tree. destruct (odb r !! head r) as [c|]; simpl; naive_solver.
Qed.

(** The preconditions of the commit builder, unfolded to what it reads. *)
Lemma merge_group_Ok r ref es prev :
  is_group ref es →
  Forall (λ e, is_Some (source_blob r e)) es →
  empty_commit_present r →
  head_tree r = Some prev →
  ∃ up_id up prev_c,
    names r !! ref = Some up_id ∧ odb r !! up_id = Some up
    ∧ odb r !! head r = Some prev_c ∧ tree prev_c = prev
    ∧ Forall (λ e, is_Some (tree up !! src_path e)) es
    ∧ (∀ e, e ∈ es → source_blob r e = tree up !! src_path e)
    ∧ let first := first_commit_of up_id up ∅ ref es in
      merge_files_and_create_commit es r
      = (merged_repo r up first
           (second_commit_of (length (odb r)) first (head r) prev_c ref es) es,
         Ok tt).
Proof.
  intros Hg Hall (eid & c_empty & Hen & Heo & Hempty) Hprev.
  destruct (group_resolves _ _ _ Hg Hall) as (e0 & up_id & up & He0 & <- & Hn & Ho & Hsrc).
  apply head_tree_Some in Hprev as (prev_c & Hprev & Ht).
  exists up_id, up, prev_c. split_and!; try done.
  - by apply (group_source_blob r (git_ref e0) es up_id up (proj2 Hg)).
  - simpl. rewrite <- Hempty. by eapply merge_Ok.
Qed.

Lemma merged_repo_head_tree r up first second es :
  head_tree (merged_repo r up first second es) = Some (tree second).
Proof.
  unfold head_tree, merged_repo. simpl.
  rewrite lookup_app_r by lia.
  by replace (S (length (odb r)) - length (odb r)) with 1 by lia.
Qed.




Lemma ex_group_is_group : is_group ex_ref ex_group.
Proof. unfold is_group. compute_done. Qed.

Lemma ex_group_resolves : Forall (λ e, is_Some (source_blob ex_repo e)) ex_group.
Proof. compute_done. Qed.

Lemma ex_repo_empty_commit : empty_commit_present ex_repo.
Proof. exists 0, (mkCommit ∅ [] "Initial empty repository"). by vm_compute. Qed.




Lemma repo_commit_unresolved rev r :
  ref_tree r rev = None → ∃ x, repo_commit rev r = (r, Raise x).
Proof.
  unfold ref_tree, repo_commit, bind, get, lift_option, ret, raise.
  destruct (names r !! rev) as [id|]; simpl; [|eauto].
  destruct (odb r !! id); simpl; [done|eauto].
Qed.

(** C10. When the hard-coded commit is in the repository with an empty tree,
    resolving it and building the first index from it succeed, and the index
    starts empty; when it does not resolve, the builder raises and leaves the
    repository as it found it, so no commit has been created. *)
Theorem empty_commit_presupposed r es :
  (empty_commit_present r →
   ∃ id c, repo_commit EMPTY_COMMIT_SHA r = (r, Ok (id, c))
           ∧ IndexFile_from_tree c = ∅)
  ∧ (ref_tree r EMPTY_COMMIT_SHA = None →
     ∃ x, merge_files_and_create_commit es r = (r, Raise x)).
Proof.
  split.
  - intros (id & c & Hn & Ho & Ht). exists id, c. split; [|done].
    by apply repo_commit_Ok.
  - intros Hnone. unfold merge_files_and_create_commit.
    unfold bind at 1. destruct (es !! 0) as [e0|]; simpl; [|by eexists].
    unfold bind at 1.
    destruct (repo_commit (git_ref e0) r) as [r1 [[up_id up]|x]] eqn:Hup.
    + apply repo_commit_state in Hup as ->.
      destruct (repo_commit_unresolved _ _ Hnone) as [x Hx].
      unfold bind at 1. rewrite Hx. by eexists.
    + apply repo_commit_state in Hup as ->. by eexists.
Qed.

Lemma empty_commit_presupposed_witness :
  (∃ id c, repo_commit EMPTY_COMMIT_SHA ex_repo = (ex_repo, Ok (id, c))
           ∧ IndexFile_from_tree c = ∅)
  ∧ (∃ x, merge_files_and_create_commit ex_group ex_repo_no_empty_commit
          = (ex_repo_no_empty_commit, Raise x)).
Proof.
  split.
  - apply (proj1 (empty_commit_presupposed ex_repo ex_group)).
    exact ex_repo_empty_commit.
  - apply (proj2 (empty_commit_presupposed ex_repo_no_empty_commit ex_group)).
    reflexivity.
Defined.




(** ** Orchestrator *)

(** C9, at a branch that tracks nothing: [tracking_branch()] is [None], the
    comparison of its [name] raises [AttributeError], and the run ends there,
    whatever the manifest and the repository hold. *)
Theorem create_commits_without_tracking_branch manifest o n h i w p :
  create_commits manifest (mkRepo o n h None i w p)
  = (mkRepo o n h None i w p, Raise AttributeError).
Proof. reflexivity. Qed.

(** With a tracking branch of another name the check prints its warning and
    the run goes on as it would have without the mismatch. *)
Lemma create_commits_tracking_mismatch r manifest b :
  tracking r = Some b → b ≠ "aosp/expected_upstream"%string →
  create_commits manifest r
  = import_outdated_entries manifest (with_output (WarnTrackingBranch b) r).
Proof.
  intros Hb Hne. unfold create_commits, check_tracking_branch, bind, get,
    lift_option, ret, print, modify.
  rewrite Hb. simpl.
  destruct (bool_decide _) eqn:Hd; [done|].
  by apply bool_decide_eq_false in Hd.
Qed.

Lemma create_commits_tracking_match r manifest :
  tracking r = Some "aosp/expected_upstream"%string →
  create_commits manifest r = import_outdated_entries manifest r.
Proof.
  intros Hb. unfold create_commits, check_tracking_branch, bind, get,
    lift_option, ret, print, modify.
  rewrite Hb. reflexivity.
Qed.

Lemma source_blob_same_git r r' e : same_git r r' → source_blob r' e = source_blob r e.
Proof.
  intros (Ho & Hn & _). unfold source_blob, ref_tree. by rewrite Ho, Hn.
Qed.

Lemma head_tree_same_git r r' : same_git r r' → head_tree r' = head_tree r.
Proof. intros (Ho & _ & Hh). unfold head_tree. by rewrite Ho, Hh. Qed.

Lemma same_git_with_output p r : same_git r (with_output p r).
Proof. done. Qed.

Lemma Exists_first_split {A} (P : A → Prop) `{!∀ x, Decision (P x)} (l : list A) :
  Exists P l →
  ∃ pre x post, l = pre ++ x :: post ∧ Forall (λ y, ¬ P y) pre ∧ P x.
Proof.
  induction l as [|a l IH]; intros Hex; [by apply Exists_nil in Hex|].
  destruct (decide (P a)) as [Ha|Hna].
  - by exists [], a, l.
  - apply Exists_cons in Hex as [?|Hex]; [done|].
    destruct (IH Hex) as (pre & x & post & -> & Hpre & Hx).
    exists (a :: pre), x, post. split_and!; [done| by constructor | done].
Qed.

Lemma validate_loop_unresolved r t pre e post acc :
  Forall (λ e, is_Some (source_blob r e)) pre →
  source_blob r e = None →
  ∃ x, fold_m (validate_entry t) (pre ++ e :: post) acc r
       = (with_output (ErrReadingEntry e) r, Raise x).
Proof.
  revert acc. induction pre as [|a pre IH]; intros acc Hpre He; simpl.
  - destruct (validate_entry_unresolved r t acc e He) as [x Hx].
    exists x. unfold bind. by rewrite Hx.
  - apply Forall_cons in Hpre as [[s Hs] Hpre].
    unfold bind. rewrite (validate_entry_resolved _ _ _ _ _ Hs).
    by apply IH.
Qed.

(** The filter on a manifest with an entry that does not resolve: it raises,
    touching nothing but the output, and when the branch tip can be read the
    last line printed reports the first such entry. *)
Lemma validate_unresolved r entries :
  Exists (λ e, source_blob r e = None) entries →
  ∃ r' x,
    validate_and_remove_updated_entries entries r = (r', Raise x)
    ∧ same_git r r'
    ∧ (is_Some (head_tree r) →
       ∃ pre e post,
         entries = pre ++ e :: post
         ∧ Forall (λ e, is_Some (source_blob r e)) pre
         ∧ source_blob r e = None
         ∧ last (printed r') = Some (ErrReadingEntry e)).
Proof.
  intros (pre & e & post & -> & Hpre & He)%Exists_first_split; [|apply _].
  assert (Forall (λ e, is_Some (source_blob r e)) pre) as Hpre'.
  { eapply Forall_impl; [exact Hpre|]. intros a Ha. simpl in Ha.
    by apply not_eq_None_Some. }
  unfold validate_and_remove_updated_entries, head_commit.
  destruct (odb r !! head r) as [c|] eqn:Hc.
  - destruct (validate_loop_unresolved r (tree c) pre e post [] Hpre' He) as [x Hx].
    exists (with_output (ErrReadingEntry e) r), x. split_and!.
    + unfold bind at 1. unfold bind at 1. unfold get, lift_option, bind, ret.
      rewrite Hc. simpl. exact Hx.
    + done.
    + intros _. exists pre, e, post. split_and!; try done.
      simpl. by rewrite last_snoc.
  - exists r, (BadObject (head r)). split_and!.
    + unfold bind at 1. unfold bind at 1. unfold get, lift_option, bind, ret, raise.
      by rewrite Hc.
    + done.
    + unfold head_tree. rewrite Hc. by intros [? ?].
Qed.

Lemma same_git_trans r1 r2 r3 : same_git r1 r2 → same_git r2 r3 → same_git r1 r3.
Proof. intros (? & ? & ?) (? & ? & ?). split_and!; congruence. Qed.

Lemma check_tracking_branch_Some r b :
  tracking r = Some b →
  ∃ r1, check_tracking_branch r = (r1, Ok tt) ∧ same_git r r1.
Proof.
  intros Hb. unfold check_tracking_branch, bind, get, lift_option, ret, print, modify.
  rewrite Hb. simpl. destruct (bool_decide _); eexists; split; done.
Qed.

Lemma import_outdated_entries_unresolved r manifest :
  Exists (λ e, source_blob r e = None) manifest →
  ∃ r' x,
    import_outdated_entries manifest r = (r', Raise x)
    ∧ same_git r r'
    ∧ (is_Some (head_tree r) →
       ∃ pre e post,
         manifest = pre ++ e :: post
         ∧ Forall (λ e, is_Some (source_blob r e)) pre
         ∧ source_blob r e = None
         ∧ last (printed r') = Some (ErrReadingEntry e)).
Proof.
  intros Hex.
  set (r1 := with_output ReadingExpectedUpstream r).
  destruct (validate_unresolved r1 manifest) as (r' & x & Hrun & Hsame & Hrep).
  { eapply Exists_impl; [exact Hex|]. intros e He. simpl in *.
    by rewrite (source_blob_same_git r r1). }
  exists r', x. split_and!.
  - unfold import_outdated_entries. unfold bind at 1. unfold print, modify.
    fold r1. unfold bind. by rewrite Hrun.
  - by apply (same_git_trans r r1 r').
  - intros Hhead. destruct Hrep as (pre & e & post & -> & Hpre & He & Hlast).
    { by rewrite (head_tree_same_git r r1). }
    exists pre, e, post. split_and!; try done.
Qed.



(** ** Running the script twice *)

Lemma partition_is_group entries g :
  g ∈ partition_entries_by_ref entries → ∃ ref, is_group ref g.
Proof.
  rewrite partition_entries_by_ref_groups.
  intros (ref & -> & Href)%list_elem_of_fmap. exists ref. split.
  - apply elem_of_first_seen, list_elem_of_fmap in Href as (e & -> & He).
    intros Hnil.
    assert (e ∈ entries_of_ref (git_ref e) entries) as Hin
      by (by apply list_elem_of_filter).
    rewrite Hnil in Hin. by apply elem_of_nil in Hin.
  - apply Forall_forall. intros e He.
    by apply list_elem_of_filter in He as [? _].
Qed.

Lemma partition_concat_perm entries :
  concat (partition_entries_by_ref entries) ≡ₚ entries.
Proof. unfold partition_entries_by_ref. by rewrite partition_loop_perm. Qed.

Lemma validate_Ok_inv entries r r' res :
  validate_and_remove_updated_entries entries r = (r', Ok res) →
  r' = r
  ∧ ∃ t, head_tree r = Some t
         ∧ Forall (λ e, is_Some (source_blob r e)) entries
         ∧ res = filter (needs_update r t) entries.
Proof.
  intros Hrun.
  destruct (decide (Forall (λ e, is_Some (source_blob r e)) entries)) as [Hall|Hnall].
  - destruct (head_tree r) as [t|] eqn:Ht.
    + rewrite (validate_and_remove_updated_entries_ok _ _ _ Ht Hall) in Hrun.
      injection Hrun as <- <-. eauto.
    + unfold validate_and_remove_updated_entries, head_commit in Hrun.
      unfold head_tree in Ht. destruct (odb r !! head r) eqn:Hc; [done|].
      unfold bind at 1 in Hrun. unfold bind at 1 in Hrun.
      unfold get, lift_option, bind, raise in Hrun. by rewrite Hc in Hrun.
  - apply not_Forall_Exists in Hnall; [|apply _].
    destruct (validate_unresolved r entries) as (r2 & x & Hx & _).
    { eapply Exists_impl; [exact Hnall|]. intros e He. simpl in He.
      by apply eq_None_not_Some. }
    rewrite Hx in Hrun. discriminate.
Qed.

Lemma extends_refl r : extends r r.
Proof. split_and!; try done. exists []. by rewrite app_nil_r. Qed.

Lemma extends_trans r1 r2 r3 : extends r1 r2 → extends r2 r3 → extends r1 r3.
Proof.
  intros (Hn1 & Ht1 & k1 & Ho1) (Hn2 & Ht2 & k2 & Ho2). split_and!; [congruence..|].
  exists (k1 ++ k2). by rewrite Ho2, Ho1, (assoc_L (++)).
Qed.

Lemma extends_with_output p r : extends r (with_output p r).
Proof. split_and!; try done. exists []. simpl. by rewrite app_nil_r. Qed.

Lemma extends_merged_repo r up first second es :
  extends r (merged_repo r up first second es).
Proof. split_and!; try done. by eexists. Qed.

Lemma extends_source_blob r r' e :
  extends r r' → is_Some (source_blob r e) → source_blob r' e = source_blob r e.
Proof.
  intros (Hn & _ & k & Ho) [s Hs]. rewrite Hs.
  apply source_blob_Some in Hs as (id & c & Hid & Hc & Hsrc).
  apply source_blob_Some. exists id, c. split_and!; [congruence| |done].
  rewrite Ho. by apply lookup_app_l_Some.
Qed.

Lemma overlay_lookup_written up es t p :
  p ∈ dst_path <$> es →
  Forall (λ e, is_Some (up !! src_path e)) es →
  ∃ e, e ∈ es ∧ dst_path e = p ∧ overlay up es t !! p = up !! src_path e.
Proof.
  induction es as [|x es IH] using rev_ind.
  - intros H. by apply elem_of_nil in H.
  - rewrite fmap_app, elem_of_app. simpl. rewrite list_elem_of_singleton.
    intros Hp [Hall [[b Hb] _]%Forall_cons]%Forall_app.
    rewrite overlay_snoc, Hb.
    destruct (decide (p = dst_path x)) as [->|Hne].
    + exists x. rewrite lookup_insert_eq, elem_of_app, list_elem_of_singleton.
      by split_and!; [right| |].
    + destruct IH as (e & He & Hd & Hov); [by destruct Hp|done|].
      exists e. rewrite lookup_insert_ne by done. rewrite elem_of_app.
      by split_and!; [left| |].
Qed.

Lemma consistent_subseteq r l1 l2 :
  (∀ e, e ∈ l1 → e ∈ l2) → consistent r l2 → consistent r l1.
Proof. intros Hsub Hc e1 e2 H1 H2. apply Hc; by apply Hsub. Qed.

(** One group merged: the entries settled so far stay up to date in the new
    tip, and the entries of the group become so. *)
Lemma merge_step r0 r r' g ref settled t :
  merge_files_and_create_commit g r = (r', Ok tt) →
  extends r0 r →
  empty_commit_ok r →
  is_group ref g →
  Forall (λ e, is_Some (source_blob r0 e)) (settled ++ g) →
  consistent r0 (settled ++ g) →
  head_tree r = Some t →
  up_to_date r0 t settled →
  extends r0 r' ∧ empty_commit_ok r'
  ∧ ∃ t', head_tree r' = Some t' ∧ up_to_date r0 t' (settled ++ g).
Proof.
  intros Hrun Hext Hempty [Hne Hg] Hall Hcons Ht Hup.
  apply merge_Ok_inv in Hrun
    as (e0 & up_id & up & eid & c_empty & prev & He0 & Hn & Ho & Hen & Heo
        & Hsrc & Hprev & ->).
  pose proof (Hempty eid c_empty Hen Heo) as Hnil.
  apply head_tree_Some in Ht as (pc & Hpc & <-).
  rewrite (lookup_app_l_Some _ _ _ _ Hpc) in Hprev. injection Hprev as <-.
  assert (git_ref e0 = ref) as Href.
  { rewrite Forall_forall in Hg. apply Hg. by eapply list_elem_of_lookup_2. }
  rewrite Href in Hn.
  split_and!.
  - eapply extends_trans; [exact Hext|]. apply extends_merged_repo.
  - intros id c Hid Hc. simpl in Hid. rewrite Hen in Hid. injection Hid as <-.
    simpl in Hc. rewrite (lookup_app_l_Some _ _ _ _ Heo) in Hc. by injection Hc as <-.
  - eexists. split; [apply merged_repo_head_tree|]. simpl. rewrite Hnil.
    intros e He.
    apply Forall_app in Hall as [_ Hallg]. rewrite Forall_forall in Hallg.
    destruct (decide (dst_path e ∈ dst_path <$> g)) as [Hin|Hnin].
    + destruct (overlay_lookup_written (tree up) g ∅ _ Hin Hsrc)
        as (e' & He' & Hd & Hov).
      rewrite Forall_forall in Hsrc. destruct (Hsrc e' He') as [b Hb].
      rewrite Hb in Hov. rewrite (lookup_union_Some_l _ _ _ _ Hov).
      rewrite <- Hb.
      rewrite <- (group_source_blob r ref g up_id up Hg Hn Ho e' He').
      rewrite (extends_source_blob r0 r e' Hext (Hallg e' He')).
      apply Hcons; [|done|done]. apply elem_of_app. by right.
    + rewrite lookup_union_r by (by rewrite overlay_lookup_other, lookup_empty).
      apply Hup. apply elem_of_app in He as [He|He]; [done|].
      exfalso. apply Hnin. apply list_elem_of_fmap. by exists e.
Qed.

(** The loop of [create_commits] over the groups. *)
Lemma merge_loop r0 gs : ∀ r r' settled t,
  for_each gs merge_files_and_create_commit r = (r', Ok tt) →
  extends r0 r →
  empty_commit_ok r →
  Forall (λ g, ∃ ref, is_group ref g) gs →
  Forall (λ e, is_Some (source_blob r0 e)) (settled ++ concat gs) →
  consistent r0 (settled ++ concat gs) →
  head_tree r = Some t →
  up_to_date r0 t settled →
  extends r0 r'
  ∧ ∃ t', head_tree r' = Some t' ∧ up_to_date r0 t' (settled ++ concat gs).
Proof.
  induction gs as [|g gs IH]; intros r r' settled t Hrun Hext Hempty Hgs Hall Hcons Ht Hup.
  - simpl in *. unfold ret in Hrun. injection Hrun as <-.
    split; [done|]. exists t. split; [done|]. by rewrite app_nil_r.
  - simpl in Hrun, Hall, Hcons |- *.
    apply bind_Ok in Hrun as (r1 & [] & Hg & Hrun).
    apply Forall_cons in Hgs as [[ref Hgroup] Hgs].
    rewrite (assoc_L (++)) in Hall, Hcons |- *.
    destruct (merge_step r0 r r1 g ref settled t Hg Hext Hempty Hgroup)
      as (Hext1 & Hempty1 & t1 & Ht1 & Hup1); try done.
    + by apply Forall_app in Hall as [? _].
    + eapply consistent_subseteq; [|exact Hcons].
      intros e He. apply elem_of_app. by left.
    + by apply (IH r1 r' (settled ++ g) t1).
Qed.

Lemma up_to_date_same_git r r' t entries :
  same_git r r' → up_to_date r t entries → up_to_date r' t entries.
Proof. intros Hs Hup e He. rewrite (source_blob_same_git r r' e Hs). by apply Hup. Qed.

Lemma resolves_same_git r r' entries :
  same_git r r' →
  Forall (λ e, is_Some (source_blob r e)) entries →
  Forall (λ e, is_Some (source_blob r' e)) entries.
Proof.
  intros Hs Hall. eapply Forall_impl; [exact Hall|]. intros e He. simpl in *.
  by rewrite (source_blob_same_git r r' e Hs).
Qed.

Lemma consistent_same_git r r' entries :
  same_git r r' → consistent r entries → consistent r' entries.
Proof.
  intros Hs Hc e1 e2 H1 H2 Hd. rewrite !(source_blob_same_git r r' _ Hs).
  by apply Hc.
Qed.

Lemma empty_commit_ok_same_git r r' :
  same_git r r' → empty_commit_ok r → empty_commit_ok r'.
Proof.
  intros (Ho & Hn & _) Hok id c Hid Hc. rewrite Hn in Hid. rewrite Ho in Hc.
  by apply (Hok id c).
Qed.

Lemma not_needs_update r t e :
  ¬ needs_update r t e → t !! dst_path e = source_blob r e.
Proof.
  unfold needs_update. intros Hn.
  destruct (decide (t !! dst_path e = source_blob r e)) as [|Hne]; [done|].
  exfalso. apply Hn. by right.
Qed.

Lemma up_to_date_not_needs_update r t e :
  is_Some (source_blob r e) → t !! dst_path e = source_blob r e →
  ¬ needs_update r t e.
Proof.
  intros [s Hs] Heq [Hnone|Hne]; [|done]. rewrite Heq, Hs in Hnone. done.
Qed.

Lemma filter_nil_all {A} (P : A → Prop) `{!∀ x, Decision (P x)} (l : list A) :
  (∀ x, x ∈ l → ¬ P x) → filter P l = [].
Proof.
  induction l as [|a l IH]; intros Hl; [done|].
  rewrite filter_cons_False by (apply Hl; left).
  apply IH. intros x Hx. apply Hl. by right.
Qed.

(** On a repository whose tip already holds every entry's upstream bytes the
    filter returns nothing, and the run stops after saying so. *)
Lemma validate_up_to_date r t manifest :
  head_tree r = Some t →
  Forall (λ e, is_Some (source_blob r e)) manifest →
  up_to_date r t manifest →
  validate_and_remove_updated_entries manifest r = (r, Ok []).
Proof.
  intros Ht Hall Hup.
  rewrite (validate_and_remove_updated_entries_ok r t manifest Ht Hall).
  rewrite filter_nil_all; [done|].
  intros e He. rewrite Forall_forall in Hall.
  apply up_to_date_not_needs_update; [by apply Hall | by apply Hup].
Qed.

Lemma import_outdated_entries_up_to_date r t manifest :
  head_tree r = Some t →
  Forall (λ e, is_Some (source_blob r e)) manifest →
  up_to_date r t manifest →
  import_outdated_entries manifest r
  = (with_output NoNeedToUpdate (with_output ReadingExpectedUpstream r), Ok tt).
Proof.
  intros Ht Hall Hup. unfold import_outdated_entries.
  unfold bind at 1. unfold print at 1, modify.
  set (r1 := with_output ReadingExpectedUpstream r).
  assert (same_git r r1) as Hs by done.
  rewrite (bind_step _ _ r1 r1 []).
  - done.
  - apply (validate_up_to_date r1 t).
    + by rewrite (head_tree_same_git r r1).
    + by apply (resolves_same_git r r1).
    + by apply (up_to_date_same_git r r1).
Qed.

Lemma for_each_print_quiet {A} (f : A → Printed) (l : list A) r :
  ∃ r', for_each l (λ x, print (f x)) r = (r', Ok tt)
        ∧ same_git r r' ∧ tracking r' = tracking r.
Proof.
  revert r. induction l as [|x l IH]; intros r; simpl.
  - by exists r.
  - unfold bind, print at 1, modify.
    destruct (IH (with_output (f x) r)) as (r' & -> & Hs & Ht).
    exists r'. split_and!; [done| |done].
    by apply (same_git_trans r (with_output (f x) r) r').
Qed.

Lemma same_git_extends r r' : same_git r r' → tracking r' = tracking r → extends r r'.
Proof.
  intros (Ho & Hn & _) Ht. split_and!; try done. exists []. by rewrite app_nil_r.
Qed.

(** A run of the second part of [create_commits] that completes leaves a tip
    that holds, for every entry, its upstream bytes. *)
Lemma import_outdated_entries_Ok_inv r manifest r1 :
  import_outdated_entries manifest r = (r1, Ok tt) →
  empty_commit_ok r → consistent r manifest →
  extends r r1
  ∧ Forall (λ e, is_Some (source_blob r e)) manifest
  ∧ ∃ t1, head_tree r1 = Some t1 ∧ up_to_date r t1 manifest.
Proof.
  intros Hrun Hempty Hcons. unfold import_outdated_entries in Hrun.
  unfold bind at 1 in Hrun. unfold print at 1, modify in Hrun.
  set (rb := with_output ReadingExpectedUpstream r) in Hrun.
  assert (same_git r rb) as Hsb by done.
  apply bind_Ok in Hrun as (rb' & outdated & Hval & Hrun).
  apply validate_Ok_inv in Hval as (-> & t & Ht & Hall & ->).
  assert (Forall (λ e, is_Some (source_blob r e)) manifest) as Hall' by exact Hall.
  assert (∀ e, e ∈ manifest → ¬ needs_update r t e → t !! dst_path e = source_blob r e)
    as Hold by (intros e _; apply not_needs_update).
  change (filter (needs_update rb t) manifest)
    with (filter (needs_update r t) manifest) in Hrun.
  destruct (filter (needs_update r t) manifest) as [|o os] eqn:Hout.
  - unfold print, modify in Hrun. injection Hrun as <-.
    split_and!; [by apply same_git_extends|done|]. exists t. split; [done|].
    intros e He. apply Hold; [done|]. intros Hnu.
    assert (e ∈ filter (needs_update r t) manifest) as Hin
      by (by apply list_elem_of_filter).
    rewrite Hout in Hin. by apply elem_of_nil in Hin.
  - rewrite <- Hout in Hrun. clear o os Hout.
    set (outdated := filter (needs_update r t) manifest) in *.
    apply bind_Ok in Hrun as (rc & [] & Hp & Hrun).
    unfold print, modify in Hp. injection Hp as <-.
    apply bind_Ok in Hrun as (rd & [] & Hp & Hrun).
    destruct (for_each_print_quiet (λ e, OutdatedPath (dst_path e)) outdated
                (with_output FollowingEntriesUpdated rb)) as (rd' & Hp' & Hsd & Htd).
    rewrite Hp' in Hp. injection Hp as ->.
    assert (same_git r rd) as Hs.
    { apply (same_git_trans r (with_output FollowingEntriesUpdated rb) rd); done. }
    set (settled := filter (λ e, ¬ needs_update r t e) manifest).
    assert (∀ e, e ∈ settled ++ concat (partition_entries_by_ref outdated)
                 → e ∈ manifest) as Hsub.
    { intros e [He|He]%elem_of_app.
      - by apply list_elem_of_filter in He as [_ ?].
      - rewrite partition_concat_perm in He.
        by apply list_elem_of_filter in He as [_ ?]. }
    destruct (merge_loop r (partition_entries_by_ref outdated) rd r1 settled t Hrun)
      as (Hext & t1 & Ht1 & Hup).
    + by apply same_git_extends.
    + by apply (empty_commit_ok_same_git r rd).
    + apply Forall_forall. intros g Hg. by apply (partition_is_group outdated).
    + apply Forall_forall. intros e He. rewrite Forall_forall in Hall'.
      by apply Hall', Hsub.
    + by apply (consistent_subseteq r _ manifest).
    + by rewrite (head_tree_same_git r rd).
    + intros e He. apply list_elem_of_filter in He as [Hnu He]. by apply Hold.
    + split_and!; [done|done|]. exists t1. split; [done|].
      intros e He. apply Hup. apply elem_of_app.
      destruct (decide (needs_update r t e)) as [Hnu|Hnu].
      * right. rewrite partition_concat_perm. by apply list_elem_of_filter.
      * left. by apply list_elem_of_filter.
Qed.

Lemma check_tracking_branch_Ok_inv r ra :
  check_tracking_branch r = (ra, Ok tt) →
  is_Some (tracking r) ∧ same_git r ra ∧ tracking ra = tracking r.
Proof.
  unfold check_tracking_branch, bind, get, lift_option, ret, raise, print, modify.
  destruct (tracking r) as [b|] eqn:Hb; simpl; [|done].
  destruct (bool_decide _); intros [= <-]; rewrite ?Hb; by split_and!.
Qed.

Lemma consistent_Forall r entries :
  Forall (λ e1, Forall (λ e2, dst_path e1 = dst_path e2 →
                              source_blob r e1 = source_blob r e2) entries) entries →
  consistent r entries.
Proof.
  intros Hall e1 e2 H1 H2. rewrite Forall_forall in Hall.
  pose proof (Hall e1 H1) as Hall1. rewrite Forall_forall in Hall1. by apply Hall1.
Qed.

Lemma empty_commit_present_ok r : empty_commit_present r → empty_commit_ok r.
Proof. intros (id & c & Hn & Ho & Ht) id' c' Hn' Ho'. congruence. Qed.




(** * Further properties of the code *)

(** ** Staleness Filter *)

Lemma validate_entry_output t acc e r :
  (validate_entry t acc e r).1 = r
  ∨ (validate_entry t acc e r).1 = with_output (ErrReadingEntry e) r
    ∧ ∃ x, (validate_entry t acc e r).2 = Raise x.
Proof.
  destruct (source_blob r e) as [s|] eqn:Hs.
  - left. by rewrite (validate_entry_resolved r t acc e s Hs).
  - right. destruct (validate_entry_unresolved r t acc e Hs) as [x ->]. eauto.
Qed.

Lemma validate_loop_output t entries : ∀ acc r,
  (fold_m (validate_entry t) entries acc r).1 = r
  ∨ ∃ e, e ∈ entries
         ∧ (fold_m (validate_entry t) entries acc r).1
           = with_output (ErrReadingEntry e) r.
Proof.
  induction entries as [|e entries IH]; intros acc r; simpl; [by left|].
  unfold bind.
  destruct (validate_entry_output t acc e r) as [Hq|[Hq [x Hx]]];
    destruct (validate_entry t acc e r) as [r1 [a|y]]; simpl in *; subst.
  - destruct (IH a r) as [Hr|(e' & He' & Hr)]; [by left|].
    right. exists e'. split; [by right|done].
  - by left.
  - done.
  - right. exists e. split; [by left|done].
Qed.

(** X1. Whatever it returns or raises, the filter writes nothing: objects,
    names, branch, tracking branch, live index and working tree are as they
    were, and the output has grown by at most the one line that reports an
    entry of the input. *)
Theorem validate_and_remove_updated_entries_read_only entries r :
  same_but_output r (validate_and_remove_updated_entries entries r).1
  ∧ (printed (validate_and_remove_updated_entries entries r).1 = printed r
     ∨ ∃ e, e ∈ entries
            ∧ printed (validate_and_remove_updated_entries entries r).1
              = printed r ++ [ErrReadingEntry e]).
Proof.
  unfold validate_and_remove_updated_entries, head_commit.
  unfold bind at 1. unfold bind at 1. unfold get, lift_option, bind, ret, raise.
  destruct (odb r !! head r) as [c|]; simpl; [|by split; [|left]].
  destruct (validate_loop_output (tree c) entries [] r) as [->|(e & He & ->)].
  - by split; [|left].
  - split; [done|]. right. by exists e.
Qed.

Lemma filter_idem {A} (P : A → Prop) `{!∀ x, Decision (P x)} (l : list A) :
  filter P (filter P l) = filter P l.
Proof.
  induction l as [|a l IH]; [done|].
  destruct (decide (P a)).
  - rewrite !filter_cons_True by done. by rewrite IH.
  - by rewrite filter_cons_False.
Qed.

(** X2. Filtering what the filter returned changes nothing: every entry it
    keeps is still outdated, so a second pass keeps them all, in order. *)
Theorem validate_and_remove_updated_entries_idempotent r t entries :
  head_tree r = Some t →
  Forall (λ e, is_Some (source_blob r e)) entries →
  ∃ outdated,
    validate_and_remove_updated_entries entries r = (r, Ok outdated)
    ∧ validate_and_remove_updated_entries outdated r = (r, Ok outdated).
Proof.
  intros Ht Hall. exists (filter (needs_update r t) entries). split.
  - by apply validate_and_remove_updated_entries_ok.
  - rewrite (validate_and_remove_updated_entries_ok r t _ Ht).
    + by rewrite filter_idem.
    + rewrite Forall_forall in Hall |- *. intros e He. apply Hall.
      by apply list_elem_of_filter in He as [_ ?].
Qed.

Lemma validate_and_remove_updated_entries_idempotent_witness :
  ∃ outdated,
    validate_and_remove_updated_entries ex_group ex_repo = (ex_repo, Ok outdated)
    ∧ validate_and_remove_updated_entries outdated ex_repo = (ex_repo, Ok outdated).
Proof.
  apply (validate_and_remove_updated_entries_idempotent ex_repo ex_head_tree ex_group).
  - reflexivity.
  - compute_done.
Defined.

(** ** Ref Partitioner *)

Lemma filter_all {A} (P : A → Prop) `{!∀ x, Decision (P x)} (l : list A) :
  (∀ x, x ∈ l → P x) → filter P l = l.
Proof.
  induction l as [|a l IH]; intros Hl; [done|].
  rewrite filter_cons_True by (apply Hl; by left).
  f_equal. apply IH. intros x Hx. apply Hl. by right.
Qed.

Lemma first_seen_app_same (r : string) (xs ys : list string) :
  xs ≠ [] → Forall (λ x, x = r) xs →
  first_seen (xs ++ ys) = r :: filter (λ y, y ≠ r) (first_seen ys).
Proof.
  induction xs as [|x xs IH]; [done|]. intros _ [-> Hall]%Forall_cons.
  destruct xs as [|x' xs]; [done|].
  change (first_seen ((r :: x' :: xs) ++ ys))
    with (r :: filter (λ y, y ≠ r) (first_seen ((x' :: xs) ++ ys))).
  rewrite IH by done.
  rewrite filter_cons_False by (intros H; by apply H).
  by rewrite filter_idem.
Qed.

(** Groups laid out one after the other, distinct refs each, are found again
    by ref. *)
Lemma regroup (g : string → list ExpectedUpstreamEntry) (ks : list string) :
  NoDup ks →
  (∀ r, r ∈ ks → g r ≠ [] ∧ Forall (λ e, git_ref e = r) (g r)) →
  first_seen (git_ref <$> concat (g <$> ks)) = ks
  ∧ ∀ r, r ∈ ks → entries_of_ref r (concat (g <$> ks)) = g r.
Proof.
  induction ks as [|k ks IH]; intros Hnd Hg; [split; [done|]; by intros r ?%elem_of_nil|].
  apply NoDup_cons in Hnd as [Hk Hnd].
  destruct (Hg k) as [Hne Hall]; [by left|].
  destruct IH as [IH1 IH2]; [done|intros r Hr; apply Hg; by right|].
  rewrite fmap_cons.
  change (concat (g k :: (g <$> ks))) with (g k ++ concat (g <$> ks)).
  rewrite fmap_app. split.
  - rewrite (first_seen_app_same k).
    + rewrite IH1. f_equal. apply filter_all. intros y Hy ->. done.
    + by destruct (g k).
    + by apply Forall_fmap.
  - intros r Hr. unfold entries_of_ref. rewrite filter_app.
    fold (entries_of_ref r (g k)). fold (entries_of_ref r (concat (g <$> ks))).
    apply elem_of_cons in Hr as [->|Hr].
    + rewrite (entries_of_ref_absent k (concat (g <$> ks))).
      * rewrite app_nil_r. apply filter_all. by apply Forall_forall.
      * rewrite <- elem_of_first_seen, IH1. done.
    + rewrite IH2 by done.
      unfold entries_of_ref. rewrite filter_nil_all; [done|].
      intros e He Hr'. rewrite Forall_forall in Hall.
      rewrite (Hall e He) in Hr'. by subst.
Qed.

Lemma entries_of_ref_group (entries : list ExpectedUpstreamEntry) r :
  r ∈ first_seen (git_ref <$> entries) →
  entries_of_ref r entries ≠ [] ∧ Forall (λ e, git_ref e = r) (entries_of_ref r entries).
Proof.
  rewrite elem_of_first_seen. intros (e & -> & He)%list_elem_of_fmap. split.
  - intros Hnil. assert (e ∈ entries_of_ref (git_ref e) entries) as Hin
      by (by apply list_elem_of_filter).
    rewrite Hnil in Hin. by apply elem_of_nil in Hin.
  - apply Forall_forall. by intros e' [? _]%list_elem_of_filter.
Qed.

(** X3. Entries that land in different groups have different refs: the
    dictionary has one key per ref, so no ref is split over two groups. *)
Theorem partition_entries_by_ref_distinct_refs entries i j gi gj ei ej :
  partition_entries_by_ref entries !! i = Some gi →
  partition_entries_by_ref entries !! j = Some gj →
  ei ∈ gi → ej ∈ gj →
  i ≠ j →
  git_ref ei ≠ git_ref ej.
Proof.
  rewrite partition_entries_by_ref_groups, !list_lookup_fmap.
  destruct (first_seen (git_ref <$> entries) !! i) as [ri|] eqn:Hi; [|done].
  destruct (first_seen (git_ref <$> entries) !! j) as [rj|] eqn:Hj; [|done].
  simpl. intros [= <-] [= <-] [Hei _]%list_elem_of_filter [Hej _]%list_elem_of_filter Hij Heq.
  apply Hij.
  apply (NoDup_lookup (first_seen (git_ref <$> entries)) i j ri);
    [apply NoDup_first_seen|done|congruence].
Qed.

Lemma partition_entries_by_ref_distinct_refs_witness :
  git_ref ex_string_entry ≠ git_ref ex_other_entry.
Proof.
  apply (partition_entries_by_ref_distinct_refs ex_mixed_manifest 0 1
           [ex_string_entry; ex_object_entry] [ex_other_entry]).
  - reflexivity.
  - reflexivity.
  - by left.
  - by left.
  - lia.
Defined.

(** X4. Partitioning is stable: the groups written one after the other and
    partitioned again give the same groups, in the same order. *)
Theorem partition_entries_by_ref_regroup (entries : list ExpectedUpstreamEntry) :
  partition_entries_by_ref (concat (partition_entries_by_ref entries))
  = partition_entries_by_ref entries.
Proof.
  rewrite (partition_entries_by_ref_groups entries).
  destruct (regroup (λ r, entries_of_ref r entries) (first_seen (git_ref <$> entries)))
    as [H1 H2]; [apply NoDup_first_seen|apply entries_of_ref_group|].
  rewrite partition_entries_by_ref_groups, H1.
  apply list_fmap_ext. intros i r Hr. apply H2. by eapply list_elem_of_lookup_2.
Qed.

(** X5. Entries that all name one ref come back as one group, the input
    itself: nothing is reordered and nothing is dropped. *)
Theorem partition_entries_by_ref_single_ref ref entries :
  is_group ref entries →
  partition_entries_by_ref entries = [entries].
Proof.
  intros [Hne Hall]. rewrite partition_entries_by_ref_groups.
  rewrite <- (app_nil_r (git_ref <$> entries)).
  rewrite (first_seen_app_same ref).
  - simpl. f_equal. apply filter_all. by apply Forall_forall.
  - by destruct entries.
  - by apply Forall_fmap.
Qed.

Lemma partition_entries_by_ref_single_ref_witness :
  partition_entries_by_ref ex_group = [ex_group].
Proof.
  apply (partition_entries_by_ref_single_ref ex_ref ex_group).
  unfold is_group. compute_done.
Defined.

(** ** Commit Builder *)

Lemma reset_paths_snoc t paths p idx :
  reset_paths t (paths ++ [p]) idx
  = match t !! p with
    | Some b => <[p := b]> (reset_paths t paths idx)
    | None => reset_paths t paths idx
    end.
Proof. unfold reset_paths. by rewrite foldl_app. Qed.

Lemma reset_paths_lookup_other t paths idx p :
  p ∉ paths → reset_paths t paths idx !! p = idx !! p.
Proof.
  induction paths as [|q paths IH] using rev_ind; [done|].
  rewrite not_elem_of_app, not_elem_of_cons. intros [Hp [Hne _]].
  rewrite reset_paths_snoc.
  destruct (t !! q); [rewrite lookup_insert_ne by done|]; by apply IH.
Qed.

Lemma reset_paths_lookup t paths idx p :
  p ∈ paths → is_Some (t !! p) → reset_paths t paths idx !! p = t !! p.
Proof.
  intros Hp [b Hb]. induction paths as [|q paths IH] using rev_ind.
  - by apply elem_of_nil in Hp.
  - rewrite reset_paths_snoc. destruct (decide (p = q)) as [<-|Hne].
    + by rewrite Hb, lookup_insert_eq.
    + apply elem_of_app in Hp as [Hp|Hp%list_elem_of_singleton]; [|done].
      destruct (t !! q); [rewrite lookup_insert_ne by done|]; by apply IH.
Qed.

(** At a destination path the overlay does not depend on what it is laid
    over. *)
Lemma overlay_lookup_base up es t t' p :
  p ∈ dst_path <$> es →
  Forall (λ e, is_Some (up !! src_path e)) es →
  overlay up es t !! p = overlay up es t' !! p.
Proof.
  induction es as [|e es IH] using rev_ind.
  - intros H. by apply elem_of_nil in H.
  - rewrite fmap_app, elem_of_app. simpl. rewrite list_elem_of_singleton.
    intros Hp [Hall [[b Hb] _]%Forall_cons]%Forall_app.
    rewrite !overlay_snoc, Hb.
    destruct (decide (p = dst_path e)) as [->|Hne].
    + by rewrite !lookup_insert_eq.
    + rewrite !lookup_insert_ne by done. apply IH; [|done]. by destruct Hp.
Qed.

(** How the first loop of the commit builder fails: at the first entry whose
    source path upstream does not have, the entries before it written to the
    working tree. *)
Lemma import_loop_Raise_inv up es : ∀ idx r r' x,
  fold_m (import_entry up) es idx r = (r', Raise x) →
  ∃ pre e post,
    es = pre ++ e :: post
    ∧ Forall (λ e, is_Some (tree up !! src_path e)) pre
    ∧ tree up !! src_path e = None
    ∧ x = KeyError (src_path e)
    ∧ r' = with_worktree (overlay (tree up) pre (worktree r)) r.
Proof.
  induction es as [|e es IH]; intros idx r r' x H; [done|].
  simpl in H. destruct (tree up !! src_path e) as [b|] eqn:Hb.
  - rewrite (bind_step _ _ _ _ _ (import_entry_Ok up idx e r b Hb)) in H.
    apply IH in H as (pre & e' & post & -> & Hpre & He' & -> & ->).
    exists (e :: pre), e', post. split_and!; try done.
    + apply Forall_cons. split; [by rewrite Hb|done].
    + simpl. by rewrite Hb.
  - apply bind_Raise in H as [H|(r1 & a & H & _)];
      rewrite (import_entry_Raise up idx e r Hb) in H; [|done].
    injection H as <- <-.
    exists [], e, es. split_and!; try done. by destruct r.
Qed.

(** How the commit builder fails. *)
Lemma merge_Raise_inv entry_set r r' x :
  merge_files_and_create_commit entry_set r = (r', Raise x) →
  (entry_set = [] ∧ x = IndexError ∧ r' = r)
  ∨ (∃ e0, entry_set !! 0 = Some e0
           ∧ (repo_commit (git_ref e0) r = (r, Raise x)
              ∨ repo_commit EMPTY_COMMIT_SHA r = (r, Raise x))
           ∧ r' = r)
  ∨ (∃ up pre e post, entry_set = pre ++ e :: post
           ∧ x = KeyError (src_path e)
           ∧ r' = with_worktree (overlay (tree up) pre (worktree r)) r)
  ∨ (odb r !! head r = None ∧ x = BadObject (head r)).
Proof.
  intros H. unfold merge_files_and_create_commit in H.
  destruct (entry_set !! 0) as [e0|] eqn:He0.
  2:{ left. destruct entry_set; [|done]. simpl in H.
      unfold bind, raise in H. simpl in H. by injection H as <- <-. }
  rewrite (bind_step _ _ r r e0) in H by done.
  right.
  apply bind_Raise in H as [H|(r1 & [up_id up] & Hup & H)].
  { left. pose proof (repo_commit_state _ _ _ _ H) as ->.
    exists e0. split_and!; try done. by left. }
  apply repo_commit_Ok in Hup as (Hn & Ho & ->).
  apply bind_Raise in H as [H|(r1 & [eid c_empty] & Hem & H)].
  { left. pose proof (repo_commit_state _ _ _ _ H) as ->.
    exists e0. split_and!; try done. by right. }
  apply repo_commit_Ok in Hem as (Hen & Heo & ->).
  right.
  apply bind_Raise in H as [H|(r1 & idx1 & Hloop & H)].
  { left. apply import_loop_Raise_inv in H as (pre & e & post & -> & _ & _ & -> & ->).
    by exists up, pre, e, post. }
  right.
  destruct (decide (Forall (λ e, is_Some (tree up !! src_path e)) entry_set))
    as [Hall|Hnall].
  2:{ apply (import_loop_Raise _ _ (IndexFile_from_tree c_empty) r)
        in Hnall as (? & ? & Hr & _).
      rewrite Hr in Hloop. discriminate. }
  rewrite import_loop_Ok in Hloop by done. injection Hloop as <- <-.
  apply bind_Raise in H as [H|(r2 & [first_id c1] & Hc1 & H)].
  { unfold IndexFile_commit, bind, get, modify, ret in H. simpl in H. discriminate. }
  unfold IndexFile_commit, bind, get, modify, ret in Hc1. simpl in Hc1.
  injection Hc1 as <- <- <-.
  apply bind_Raise in H as [H|(r3 & [prev_id prev] & Hprev & H)].
  { unfold head_commit, bind, get, lift_option, ret, raise in H. simpl in H.
    destruct ((odb r ++ [_]) !! head r) as [c|] eqn:Hc; [done|].
    injection H as <- <-. split; [|done].
    apply lookup_ge_None in Hc. apply lookup_ge_None.
    rewrite length_app in Hc. simpl in Hc. lia. }
  apply head_commit_Ok in Hprev as (-> & Hprev & ->). simpl in Hprev.
  apply bind_Raise in H as [H|(r4 & [second_id c2] & Hc2 & H)].
  { unfold IndexFile_commit, bind, get, modify, ret in H. simpl in H. discriminate. }
  unfold IndexFile_commit, bind, get, modify, ret in Hc2. simpl in Hc2.
  injection Hc2 as <- <- <-.
  apply bind_Raise in H as [H|(r5 & [] & Hreset & H)].
  - unfold index_reset, head_commit, bind, get, lift_option, ret, raise, modify in H.
    simpl in H. rewrite lookup_app_r in H by done.
    rewrite Nat.sub_diag in H. simpl in H. discriminate.
  - unfold print, modify in H. discriminate.
Qed.

Lemma repo_commit_Raise rev r r' x :
  repo_commit rev r = (r', Raise x) → lookup_error x.
Proof.
  unfold repo_commit, bind, get, lift_option, ret, raise.
  destruct (names r !! rev) as [id|]; simpl; [|by intros [= <- <-]].
  destruct (odb r !! id); simpl; [done|by intros [= <- <-]].
Qed.





Lemma up_to_date_Forall r t entries :
  Forall (λ e, t !! dst_path e = source_blob r e) entries → up_to_date r t entries.
Proof. intros H e He. rewrite Forall_forall in H. by apply H. Qed.



(** ** Orchestrator *)

Lemma empty_commit_present_extends r r' :
  extends r r' → empty_commit_present r → empty_commit_present r'.
Proof.
  intros (Hn & _ & new & Ho) (id & c & Hid & Hc & Ht).
  exists id, c. rewrite Hn, Ho. split_and!; try done. by apply lookup_app_l_Some.
Qed.

Lemma resolves_extends r r' entries :
  extends r r' →
  Forall (λ e, is_Some (source_blob r e)) entries →
  Forall (λ e, is_Some (source_blob r' e)) entries.
Proof.
  intros Hext Hall. eapply Forall_impl; [exact Hall|].
  intros e He. simpl in *. by rewrite (extends_source_blob r r' e Hext He).
Qed.

Lemma for_each_print {A} (f : A → Printed) (l : list A) : ∀ r,
  ∃ r', for_each l (λ x, print (f x)) r = (r', Ok tt)
        ∧ same_but_output r r' ∧ printed r' = printed r ++ (f <$> l).
Proof.
  induction l as [|x l IH]; intros r; simpl.
  - exists r. split_and!; try done. by rewrite app_nil_r.
  - unfold bind, print at 1, modify.
    destruct (IH (with_output (f x) r)) as (r' & -> & Hs & Hp).
    exists r'. split_and!; [done|exact Hs|].
    rewrite Hp. simpl. by rewrite <- (assoc_L (++)).
Qed.

Lemma merge_lines_cons n g gs :
  merge_lines n (g :: gs)
  = NewMergeCommit (S n) (files_of g) :: merge_lines (n + 2) gs.
Proof.
  unfold merge_lines. rewrite imap_cons. f_equal.
  - f_equal. lia.
  - apply imap_ext. intros k g' _. simpl. f_equal. lia.
Qed.

(** The loop over the groups completes when every group resolves and the
    empty commit is there; two commits and one line per group. *)
Lemma merge_loop_Ok r0 gs : ∀ r,
  extends r0 r →
  empty_commit_present r0 →
  is_Some (head_tree r) →
  Forall (λ g, ∃ ref, is_group ref g) gs →
  Forall (λ e, is_Some (source_blob r0 e)) (concat gs) →
  ∃ r', for_each gs merge_files_and_create_commit r = (r', Ok tt)
        ∧ extends r r'
        ∧ length (odb r') = length (odb r) + 2 * length gs
        ∧ is_Some (head_tree r')
        ∧ printed r' = printed r ++ merge_lines (length (odb r)) gs.
Proof.
  induction gs as [|g gs IH]; intros r Hext Hempty [t Ht] Hgs Hall.
  - exists r. split_and!; [done|apply extends_refl|simpl; lia|by eexists|].
    by rewrite app_nil_r.
  - apply Forall_cons in Hgs as [[ref Hg] Hgs].
    simpl in Hall. apply Forall_app in Hall as [Hallg Hall].
    destruct (merge_group_Ok r ref g t Hg) as
      (up_id & up & prev_c & _ & _ & _ & _ & _ & _ & Hrun);
      [by apply (resolves_extends r0 r)|by apply (empty_commit_present_extends r0 r)
      |done|].
    simpl in Hrun.
    set (r1 := merged_repo r up _ _ g) in Hrun.
    destruct (IH r1) as (r' & Hloop & Hext' & Hlen & Hhead & Hpr); try done.
    { apply (extends_trans r0 r r1); [done|apply extends_merged_repo]. }
    { eexists. apply merged_repo_head_tree. }
    exists r'. split_and!.
    + simpl. by rewrite (bind_step _ _ _ _ _ Hrun).
    + apply (extends_trans r r1 r'); [apply extends_merged_repo|done].
    + rewrite Hlen. unfold r1, merged_repo. simpl. rewrite length_app. simpl. lia.
    + done.
    + rewrite Hpr, merge_lines_cons. unfold r1 at 1, merged_repo. simpl.
      rewrite <- (assoc_L (++)). simpl. do 3 f_equal.
      unfold r1, merged_repo. simpl. rewrite length_app. simpl. done.
Qed.

Lemma import_outdated_entries_Ok r manifest t :
  head_tree r = Some t →
  Forall (λ e, is_Some (source_blob r e)) manifest →
  empty_commit_present r →
  ∃ r', import_outdated_entries manifest r = (r', Ok tt)
        ∧ extends r r'
        ∧ length (odb r')
          = length (odb r)
            + 2 * length (partition_entries_by_ref (filter (needs_update r t) manifest))
        ∧ printed r' = printed r ++ transcript "aosp/expected_upstream" (length (odb r))
                                      (filter (needs_update r t) manifest).
Proof.
  intros Ht Hall Hempty. unfold import_outdated_entries.
  unfold bind at 1. unfold print at 1, modify.
  set (rb := with_output ReadingExpectedUpstream r).
  assert (same_git r rb) as Hsb by done.
  rewrite (bind_step _ _ rb rb (filter (needs_update r t) manifest)).
  2:{ apply (validate_and_remove_updated_entries_ok rb t); [done|].
      by apply (resolves_same_git r rb). }
  unfold transcript. simpl.
  destruct (filter (needs_update r t) manifest) as [|o os] eqn:Hout.
  - eexists. split; [reflexivity|]. split_and!.
    + apply (extends_trans r rb); apply extends_with_output.
    + simpl. lia.
    + simpl. by rewrite <- (assoc_L (++)).
  - rewrite <- Hout. set (outdated := filter (needs_update r t) manifest).
    unfold bind at 1. unfold print at 1, modify.
    set (rc := with_output FollowingEntriesUpdated rb).
    destruct (for_each_print (λ e, OutdatedPath (dst_path e)) outdated rc)
      as (rd & Hp & (Hod & Hnd & Hhd & Htd & _) & Hpd).
    rewrite (bind_step _ _ _ _ _ Hp).
    assert (extends r rd) as Hext.
    { split_and!; [done|done|]. exists []. by rewrite app_nil_r. }
    destruct (merge_loop_Ok r (partition_entries_by_ref outdated) rd Hext Hempty)
      as (r' & Hloop & Hext' & Hlen & _ & Hpr).
    + exists t. unfold head_tree. by rewrite Hod, Hhd.
    + apply Forall_forall. intros g Hg. by apply (partition_is_group outdated).
    + apply Forall_forall. intros e He. rewrite partition_concat_perm in He.
      apply list_elem_of_filter in He as [_ He].
      rewrite Forall_forall in Hall. by apply Hall.
    + exists r'. split_and!; [done|by apply (extends_trans r rd)|by rewrite Hlen, Hod|].
      rewrite Hpr, Hpd, Hod. simpl.
      rewrite <- !(assoc_L (++)). simpl. done.
Qed.

Lemma filter_needs_update_same_git r r' t (entries : list ExpectedUpstreamEntry) :
  same_git r r' →
  filter (needs_update r' t) entries = filter (needs_update r t) entries.
Proof.
  intros Hs. apply list_filter_iff. intros e. unfold needs_update.
  by rewrite (source_blob_same_git r r' e Hs).
Qed.

Lemma check_tracking_branch_run r b :
  tracking r = Some b →
  ∃ r1, check_tracking_branch r = (r1, Ok tt)
        ∧ same_but_output r r1
        ∧ printed r1
          = printed r ++ (if decide (b = "aosp/expected_upstream"%string) then []
                          else [WarnTrackingBranch b]).
Proof.
  intros Hb. unfold check_tracking_branch, bind, get, lift_option, ret, print, modify.
  rewrite Hb. simpl.
  destruct (decide (b = "aosp/expected_upstream"%string)) as [->|Hne].
  - exists r. split_and!; try done. by rewrite app_nil_r.
  - rewrite bool_decide_true by done. by eexists.
Qed.

Lemma create_commits_run r manifest t b :
  tracking r = Some b →
  head_tree r = Some t →
  Forall (λ e, is_Some (source_blob r e)) manifest →
  empty_commit_present r →
  ∃ r', create_commits manifest r = (r', Ok tt)
        ∧ extends r r'
        ∧ length (odb r')
          = length (odb r)
            + 2 * length (first_seen (git_ref <$> filter (needs_update r t) manifest))
        ∧ printed r' = printed r ++ transcript b (length (odb r))
                                      (filter (needs_update r t) manifest).
Proof.
  intros Hb Ht Hall Hempty.
  destruct (check_tracking_branch_run r b Hb)
    as (ra & Hcheck & (Hoa & Hna & Hha & Hta & _) & Hpa).
  assert (same_git r ra) as Hs by done.
  destruct (import_outdated_entries_Ok ra manifest t)
    as (r' & Hrun & Hext & Hlen & Hpr).
  { by rewrite (head_tree_same_git r ra). }
  { by apply (resolves_same_git r ra). }
  { destruct Hempty as (id & c & ? & ? & ?). exists id, c. by rewrite Hoa, Hna. }
  rewrite (filter_needs_update_same_git r ra t manifest Hs) in Hlen, Hpr.
  exists r'. split_and!.
  - unfold create_commits. by rewrite (bind_step _ _ _ _ _ Hcheck).
  - apply (extends_trans r ra); [by apply same_git_extends|done].
  - rewrite Hlen, Hoa, partition_entries_by_ref_groups, !length_fmap. done.
  - rewrite Hpr, Hpa, Hoa. unfold transcript.
    by rewrite <- !(assoc_L (++)).
Qed.





(** X11. When the tip already holds the upstream bytes of every entry, the
    run changes nothing but the output: no commit, and branch, live index
    and working tree as they were.  The commit builder is not reached, so the
    hard-coded empty commit need not exist. *)
Theorem create_commits_up_to_date r manifest t b :
  tracking r = Some b →
  head_tree r = Some t →
  Forall (λ e, is_Some (source_blob r e)) manifest →
  up_to_date r t manifest →
  ∃ r', create_commits manifest r = (r', Ok tt)
        ∧ same_but_output r r'
        ∧ printed r' = printed r ++ transcript b (length (odb r)) [].
Proof.
  intros Hb Ht Hall Hup.
  destruct (check_tracking_branch_run r b Hb)
    as (ra & Hcheck & (Hoa & Hna & Hha & Hta & Hia & Hwa) & Hpa).
  assert (same_git r ra) as Hs by done.
  eexists. split_and!.
  - unfold create_commits. rewrite (bind_step _ _ _ _ _ Hcheck).
    apply (import_outdated_entries_up_to_date ra t).
    + by rewrite (head_tree_same_git r ra).
    + by apply (resolves_same_git r ra).
    + by apply (up_to_date_same_git r ra).
  - by split_and!.
  - simpl. rewrite Hpa. unfold transcript. by rewrite <- !(assoc_L (++)).
Qed.

Lemma create_commits_up_to_date_witness :
  ∃ r', create_commits ex_group ex_merged_repo = (r', Ok tt)
        ∧ same_but_output ex_merged_repo r'
        ∧ printed r'
          = printed ex_merged_repo
            ++ transcript "aosp/expected_upstream" (length (odb ex_merged_repo)) [].
Proof.
  apply (create_commits_up_to_date ex_merged_repo ex_group ex_merged_tree).
  - reflexivity.
  - by vm_compute.
  - compute_done.
  - apply up_to_date_Forall. compute_done.
Defined.

Lemma validate_entry_Raise t acc e r r' x :
  validate_entry t acc e r = (r', Raise x) → lookup_error x.
Proof.
  unfold validate_entry, try_except_reraise, repo_commit, tree_join, bind, get,
    lift_option, ret, raise, print, modify.
  destruct (names r !! git_ref e) as [id|]; simpl; [|by intros [= <- <-]].
  destruct (odb r !! id) as [c|]; simpl; [|by intros [= <- <-]].
  destruct (tree c !! src_path e) as [s|]; simpl; [|by intros [= <- <-]].
  destruct (has_file_in_tree (dst_path e) t); simpl; [|done].
  destruct (t !! dst_path e) as [d|]; simpl; [|by intros [= <- <-]].
  by destruct (bool_decide (s ≠ d)).
Qed.

Lemma validate_Raise entries r r' x :
  validate_and_remove_updated_entries entries r = (r', Raise x) → lookup_error x.
Proof.
  unfold validate_and_remove_updated_entries.
  intros [H|(r1 & [id c] & _ & H)]%bind_Raise.
  - unfold head_commit, bind, get, lift_option, ret, raise in H.
    destruct (odb r !! head r); simpl in H; [done|]. by injection H as <- <-.
  - clear r. revert r1 H. generalize (@nil ExpectedUpstreamEntry) as acc.
    induction entries as [|e entries IH]; intros acc r H; [done|].
    simpl in H. apply bind_Raise in H as [H|(r2 & acc' & _ & H)].
    + by apply validate_entry_Raise in H.
    + by apply (IH acc' r2).
Qed.

Lemma merge_loop_Raise gs : ∀ r r' x,
  Forall (λ g, g ≠ []) gs →
  for_each gs merge_files_and_create_commit r = (r', Raise x) →
  lookup_error x.
Proof.
  induction gs as [|g gs IH]; intros r r' x Hgs H; [done|].
  apply Forall_cons in Hgs as [Hg Hgs]. simpl in H.
  apply bind_Raise in H as [H|(r1 & [] & _ & H)]; [|by apply (IH r1 r')].
  apply merge_Raise_inv in H
    as [(-> & _)|[(e0 & _ & [Hx|Hx] & _)|
        [(up & pre & e & post & _ & -> & _)|[_ ->]]]]; try done;
    by apply repo_commit_Raise in Hx.
Qed.



(** What a merge leaves at and off the destination paths of its group. *)
Lemma merge_group_paths r ref es prev :
  is_group ref es →
  Forall (λ e, is_Some (source_blob r e)) es →
  empty_commit_present r →
  head_tree r = Some prev →
  ∃ r' new,
    merge_files_and_create_commit es r = (r', Ok tt)
    ∧ extends r r'
    ∧ head_tree r' = Some new
    ∧ (∀ p, p ∉ dst_path <$> es →
            new !! p = prev !! p
            ∧ index r' !! p = index r !! p ∧ worktree r' !! p = worktree r !! p)
    ∧ (∀ p, p ∈ dst_path <$> es →
            is_Some (new !! p)
            ∧ index r' !! p = new !! p ∧ worktree r' !! p = new !! p).
Proof.
  intros Hg Hall Hempty Hprev.
  destruct (merge_group_Ok _ _ _ _ Hg Hall Hempty Hprev)
    as (up_id & up & prev_c & Hn & Ho & Hpc & <- & Hsrc & Hblob & Hrun).
  simpl in Hrun. eexists _, _. split; [exact Hrun|].
  split; [apply extends_merged_repo|].
  split; [apply merged_repo_head_tree|]. simpl. split.
  - intros p Hp. split_and!.
    + rewrite lookup_union_r; [done|]. by rewrite overlay_lookup_other, lookup_empty.
    + by apply reset_paths_lookup_other.
    + by apply overlay_lookup_other.
  - intros p Hp.
    destruct (overlay_lookup_member (tree up) es ∅ p Hp Hsrc) as [b Hb].
    assert ((overlay (tree up) es ∅ ∪ tree prev_c) !! p = Some b) as Hnew
      by (by apply lookup_union_Some_l).
    split_and!.
    + by rewrite Hnew.
    + rewrite reset_paths_lookup; [done|done|by rewrite Hnew].
    + by rewrite Hnew, <- Hb, (overlay_lookup_base _ _ _ ∅).
Qed.

Lemma merge_loop_paths r0 gs : ∀ r t,
  extends r0 r →
  empty_commit_present r0 →
  head_tree r = Some t →
  Forall (λ g, ∃ ref, is_group ref g) gs →
  Forall (λ e, is_Some (source_blob r0 e)) (concat gs) →
  ∃ r' t',
    for_each gs merge_files_and_create_commit r = (r', Ok tt)
    ∧ head_tree r' = Some t'
    ∧ (∀ p, p ∉ dst_path <$> concat gs →
            t' !! p = t !! p
            ∧ index r' !! p = index r !! p ∧ worktree r' !! p = worktree r !! p)
    ∧ (∀ p, p ∈ dst_path <$> concat gs →
            is_Some (t' !! p)
            ∧ index r' !! p = t' !! p ∧ worktree r' !! p = t' !! p).
Proof.
  induction gs as [|g gs IH]; intros r t Hext Hempty Ht Hgs Hall.
  - exists r, t. split_and!; try done. intros p Hp. by apply elem_of_nil in Hp.
  - apply Forall_cons in Hgs as [[ref Hg] Hgs].
    simpl in Hall. apply Forall_app in Hall as [Hallg Hall].
    destruct (merge_group_paths r ref g t Hg)
      as (r1 & t1 & Hrun & Hext1 & Ht1 & Hoff1 & Hon1);
      [by apply (resolves_extends r0 r)|by apply (empty_commit_present_extends r0 r)
      |done|].
    destruct (IH r1 t1) as (r' & t' & Hloop & Ht' & Hoff & Hon); try done.
    { by apply (extends_trans r0 r r1). }
    exists r', t'. split_and!.
    + simpl. by rewrite (bind_step _ _ _ _ _ Hrun).
    + done.
    + intros p Hp. simpl in Hp. rewrite fmap_app in Hp.
      apply not_elem_of_app in Hp as [Hpg Hpgs].
      destruct (Hoff p Hpgs) as (-> & -> & ->). by apply Hoff1.
    + intros p Hp.
      destruct (decide (p ∈ dst_path <$> concat gs)) as [Hpgs|Hpgs]; [by apply Hon|].
      simpl in Hp. rewrite fmap_app in Hp.
      apply elem_of_app in Hp as [Hpg|Hpgs']; [|done].
      destruct (Hoff p Hpgs) as (-> & -> & ->). by apply Hon1.
Qed.

(** With something to update, the run is the loop over the groups, started
    on the repository with only output added. *)
Lemma import_outdated_entries_outdated r manifest t :
  head_tree r = Some t →
  Forall (λ e, is_Some (source_blob r e)) manifest →
  filter (needs_update r t) manifest ≠ [] →
  ∃ rd, same_but_output r rd
        ∧ import_outdated_entries manifest r
          = for_each (partition_entries_by_ref (filter (needs_update r t) manifest))
              merge_files_and_create_commit rd.
Proof.
  intros Ht Hall Hne. unfold import_outdated_entries.
  unfold bind at 1. unfold print at 1, modify.
  set (rb := with_output ReadingExpectedUpstream r).
  assert (same_git r rb) as Hsb by done.
  rewrite (bind_step _ _ rb rb (filter (needs_update r t) manifest)).
  2:{ apply (validate_and_remove_updated_entries_ok rb t); [done|].
      by apply (resolves_same_git r rb). }
  destruct (filter (needs_update r t) manifest) as [|o os] eqn:Hout; [done|].
  rewrite <- Hout. set (outdated := filter (needs_update r t) manifest).
  unfold bind at 1. unfold print at 1, modify.
  set (rc := with_output FollowingEntriesUpdated rb).
  destruct (for_each_print (λ e, OutdatedPath (dst_path e)) outdated rc)
    as (rd & Hp & Hsd & _).
  rewrite (bind_step _ _ _ _ _ Hp). by exists rd.
Qed.

Lemma same_but_output_trans r1 r2 r3 :
  same_but_output r1 r2 → same_but_output r2 r3 → same_but_output r1 r3.
Proof.
  intros (? & ? & ? & ? & ? & ?) (? & ? & ? & ? & ? & ?).
  unfold same_but_output. split_and!; congruence.
Qed.

Lemma same_but_output_same_git r r' : same_but_output r r' → same_git r r'.
Proof. intros (? & ? & ? & _). by split_and!. Qed.



(** ** Commit messages *)

Lemma split_slash_nonempty s : split_slash s ≠ [].
Proof.
  destruct s as [|c s]; simpl; [done|].
  destruct (decide (c = "/"%char)); [done|]. by destruct (split_slash s).
Qed.

Lemma split_slash_app a b :
  split_slash (a +:+ "/" +:+ b) = split_slash a ++ split_slash b.
Proof.
  induction a as [|c a IH]; simpl; [done|].
  destruct (decide (c = "/"%char)); [by rewrite IH|].
  rewrite IH. pose proof (split_slash_nonempty a).
  by destruct (split_slash a).
Qed.

Lemma split_slash_plain s : mentions "/" s = false → split_slash s = [s].
Proof.
  induction s as [|c s IH]; simpl; [done|].
  intros [Hc Hs]%orb_false_elim. apply bool_decide_eq_false in Hc.
  rewrite decide_False by done. by rewrite IH.
Qed.

Lemma mentions_app c a b : mentions c (a +:+ b) = mentions c a || mentions c b.
Proof. induction a as [|x a IH]; simpl; [done|]. by rewrite IH, orb_assoc. Qed.

Lemma path_name_file dir file :
  mentions "/" file = false → file ≠ EmptyString → file ≠ "."%string →
  path_name (dir +:+ "/" +:+ file) = file.
Proof.
  intros Hs Hne Hdot. unfold path_name.
  rewrite split_slash_app, (split_slash_plain file Hs), List.filter_app. simpl.
  destruct (String.eqb_spec file EmptyString) as [|_]; [done|].
  destruct (String.eqb_spec file ".") as [|_]; [done|].
  simpl. apply List.last_last.
Qed.

Lemma rfind_None c s : mentions c s = false → rfind c s = None.
Proof.
  induction s as [|a s IH]; simpl; [done|].
  intros [Ha Hs]%orb_false_elim. apply bool_decide_eq_false in Ha.
  rewrite IH by done. by rewrite decide_False.
Qed.

Lemma rfind_last c a b :
  mentions c b = false → rfind c (a +:+ String c b) = Some (String.length a).
Proof.
  intros Hb. induction a as [|x a IH]; simpl.
  - rewrite (rfind_None c b Hb). by rewrite decide_True.
  - by rewrite IH.
Qed.

Lemma substring_prefix a b : String.substring 0 (String.length a) (a +:+ b) = a.
Proof.
  induction a as [|x a IH]; simpl; [by destruct b|]. by rewrite IH.
Qed.

Lemma length_append a b : String.length (a +:+ b) = String.length a + String.length b.
Proof. induction a as [|x a IH]; simpl; [done|]. by rewrite IH. Qed.

(** X14. The summary of a group of one entry: for a destination
    [dir/name.ext], with [name] and [ext] not empty and free of slashes and
    [ext] free of dots, [Path(dst_path).stem] is [name], the directories and
    the last suffix dropped. *)
Theorem path_stem_file dir name ext :
  mentions "/" name = false → name ≠ EmptyString →
  mentions "/" ext = false → mentions "." ext = false → ext ≠ EmptyString →
  path_stem (dir +:+ "/" +:+ name +:+ "." +:+ ext) = name.
Proof.
  intros Hn Hne He Hd Hee. unfold path_stem.
  assert (String.length name ≠ 0) as Hln by (by destruct name).
  assert (String.length ext ≠ 0) as Hle by (by destruct ext).
  rewrite path_name_file.
  - change ("." +:+ ext) with (String "." ext).
    rewrite (rfind_last "." name ext Hd).
    rewrite length_append. simpl.
    replace ((0 <? String.length name)
             && (String.length name <? String.length name + S (String.length ext) - 1))
      with true.
    + apply substring_prefix.
    + symmetry. apply andb_true_iff. split; apply Nat.ltb_lt; lia.
  - rewrite mentions_app, Hn. simpl. exact He.
  - by destruct name.
  - intros Heq. apply (f_equal String.length) in Heq.
    rewrite length_append in Heq. simpl in Heq. lia.
Qed.

Lemma path_stem_file_witness :
  path_stem ("ojluni/src/main/java/java/lang" +:+ "/" +:+ "String" +:+ "." +:+ "java")
  = "String"%string.
Proof.
  apply (path_stem_file "ojluni/src/main/java/java/lang" "String" "java").
  - reflexivity.
  - discriminate.
  - reflexivity.
  - reflexivity.
  - discriminate.
Defined.

(** ** What a run depends on *)

Section Noninterference.
Variable R : Repo → Repo → Prop.
Hypothesis R_git : ∀ ra rb, R ra rb → same_git ra rb.
Hypothesis R_print : ∀ p ra rb, R ra rb → R (with_output p ra) (with_output p rb).
Hypothesis R_write : ∀ p d ra rb,
  R ra rb → R (with_worktree (<[p := d]> (worktree ra)) ra)
              (with_worktree (<[p := d]> (worktree rb)) rb).
Hypothesis R_commit : ∀ c to_head ra rb,
  R ra rb → R (with_commit c to_head ra) (with_commit c to_head rb).
Hypothesis R_reset : ∀ t paths ra rb,
  R ra rb → R (with_index (reset_paths t paths (index ra)) ra)
              (with_index (reset_paths t paths (index rb)) rb).

Lemma respects_ret {A} (a : A) : respects R (ret a).
Proof. by intros ra rb H. Qed.

Lemma respects_raise {A} x : respects R (@raise A x).
Proof. by intros ra rb H. Qed.

Lemma respects_lift_option {A} x (o : option A) : respects R (lift_option x o).
Proof. destruct o; [apply respects_ret|apply respects_raise]. Qed.

Lemma respects_bind {A B} (m : M A) (k : A → M B) :
  respects R m → (∀ a, respects R (k a)) → respects R (bind m k).
Proof.
  intros Hm Hk ra rb H. unfold bind.
  destruct (Hm ra rb H) as [Hs Hr].
  destruct (m ra) as [ra' [a|x]], (m rb) as [rb' [a'|x']]; simpl in *;
    try discriminate.
  - injection Hr as <-. by apply Hk.
  - injection Hr as <-. by split.
Qed.

Lemma respects_try {A} (m : M A) (h : M unit) :
  respects R m → respects R h → respects R (try_except_reraise m h).
Proof.
  intros Hm Hh ra rb H. unfold try_except_reraise.
  destruct (Hm ra rb H) as [Hs Hr].
  destruct (m ra) as [ra' [a|x]], (m rb) as [rb' [a'|x']]; simpl in *;
    try discriminate; [by split|].
  injection Hr as <-.
  destruct (Hh ra' rb' Hs) as [Hs' Hr'].
  destruct (h ra') as [ra'' [[]|y]], (h rb') as [rb'' [[]|y']]; simpl in *;
    try discriminate; [by split|injection Hr' as <-; by split].
Qed.

Lemma respects_for_each {A} (l : list A) (body : A → M unit) :
  (∀ x, respects R (body x)) → respects R (for_each l body).
Proof.
  intros Hb. induction l as [|x l IH]; simpl; [apply respects_ret|].
  apply respects_bind; [apply Hb|done].
Qed.

Lemma respects_fold_m {A S} (body : S → A → M S) (l : list A) :
  (∀ acc x, respects R (body acc x)) → ∀ acc, respects R (fold_m body l acc).
Proof.
  intros Hb. induction l as [|x l IH]; intros acc; simpl; [apply respects_ret|].
  apply respects_bind; [apply Hb|done].
Qed.

Lemma respects_print p : respects R (print p).
Proof. intros ra rb H. split; [by apply R_print|done]. Qed.

Lemma respects_repo_commit rev : respects R (repo_commit rev).
Proof.
  intros ra rb H. destruct (R_git ra rb H) as (Ho & Hn & _).
  unfold repo_commit, bind, get, lift_option, ret, raise. rewrite Hn.
  destruct (names ra !! rev) as [id|]; simpl; [|done].
  rewrite Ho. by destruct (odb ra !! id).
Qed.

Lemma respects_head_commit : respects R head_commit.
Proof.
  intros ra rb H. destruct (R_git ra rb H) as (Ho & _ & Hh).
  unfold head_commit, bind, get, lift_option, ret, raise. rewrite Ho, Hh.
  by destruct (odb ra !! head ra).
Qed.

Lemma respects_validate entries :
  respects R (validate_and_remove_updated_entries entries).
Proof.
  unfold validate_and_remove_updated_entries.
  apply respects_bind; [apply respects_head_commit|]. intros [id c].
  apply respects_fold_m. intros acc e. unfold validate_entry.
  apply respects_try; [|apply respects_print].
  apply respects_bind; [apply respects_repo_commit|]. intros [id' c'].
  apply respects_bind; [apply respects_lift_option|]. intros s.
  destruct (negb _); [apply respects_ret|].
  apply respects_bind; [apply respects_lift_option|]. intros d.
  destruct (bool_decide _); apply respects_ret.
Qed.

Lemma respects_import_entry up idx e : respects R (import_entry up idx e).
Proof.
  intros ra rb H. destruct (tree up !! src_path e) as [b|] eqn:Hb.
  - rewrite !(import_entry_Ok up idx e _ b Hb). split; [by apply R_write|done].
  - by rewrite !(import_entry_Raise up idx e _ Hb).
Qed.

Lemma respects_IndexFile_commit idx msg ps to_head :
  respects R (IndexFile_commit idx msg ps to_head).
Proof.
  intros ra rb H. destruct (R_git ra rb H) as (Ho & _ & _).
  unfold IndexFile_commit, bind, get, modify, ret. simpl. split.
  - by apply (R_commit (mkCommit idx ps msg) to_head).
  - by rewrite Ho.
Qed.

Lemma respects_index_reset paths : respects R (index_reset paths).
Proof.
  unfold index_reset.
  apply respects_bind; [apply respects_head_commit|]. intros [id c].
  intros ra rb H. unfold modify. simpl. split; [|done].
  by apply (R_reset (tree c) paths).
Qed.

Lemma respects_merge entry_set :
  respects R (merge_files_and_create_commit entry_set).
Proof.
  unfold merge_files_and_create_commit.
  apply respects_bind; [apply respects_lift_option|]. intros e0.
  apply respects_bind; [apply respects_repo_commit|]. intros [up_id up].
  apply respects_bind; [apply respects_repo_commit|]. intros [eid c_empty].
  apply respects_bind.
  { apply respects_fold_m. intros idx e. apply respects_import_entry. }
  intros first_index.
  apply respects_bind; [apply respects_IndexFile_commit|]. intros [first_id c1].
  apply respects_bind; [apply respects_head_commit|]. intros [prev_id prev].
  apply respects_bind; [apply respects_IndexFile_commit|]. intros [second_id c2].
  apply respects_bind; [apply respects_index_reset|]. intros _.
  apply respects_print.
Qed.

Lemma respects_import_outdated_entries manifest :
  respects R (import_outdated_entries manifest).
Proof.
  unfold import_outdated_entries.
  apply respects_bind; [apply respects_print|]. intros _.
  apply respects_bind; [apply respects_validate|]. intros outdated.
  destruct outdated as [|o os]; [apply respects_print|].
  apply respects_bind; [apply respects_print|]. intros _.
  apply respects_bind.
  - apply respects_for_each. intros e. apply respects_print.
  - intros _. apply respects_for_each. intros g. apply respects_merge.
Qed.

End Noninterference.

Lemma same_files_respected manifest :
  respects same_files (import_outdated_entries manifest).
Proof.
  apply respects_import_outdated_entries.
  - by intros ra rb [? _].
  - by intros p ra rb (? & ? & ?).
  - intros p d ra rb ((? & ? & ?) & ? & Hw). unfold same_files, same_git. simpl.
    rewrite Hw. by split_and!.
  - intros c to_head ra rb ((Ho & ? & Hh) & ? & ?). unfold same_files, same_git. simpl.
    rewrite Ho, Hh. by split_and!.
  - intros t paths ra rb ((? & ? & ?) & Hi & ?). unfold same_files, same_git. simpl.
    rewrite Hi. by split_and!.
Qed.

Lemma same_git_print p ra rb :
  same_git ra rb → same_git (with_output p ra) (with_output p rb).
Proof. by intros (? & ? & ?). Qed.

Lemma same_history_respected_print p ra rb :
  same_history ra rb → same_history (with_output p ra) (with_output p rb).
Proof. by intros [(? & ? & ?) ?]. Qed.

Lemma same_history_respected_commit c to_head ra rb :
  same_history ra rb → same_history (with_commit c to_head ra) (with_commit c to_head rb).
Proof.
  intros [(Ho & ? & Hh) ?]. unfold same_history, same_git. simpl.
  rewrite Ho, Hh. by split_and!.
Qed.

Lemma same_history_respected manifest :
  respects same_history (create_commits manifest).
Proof.
  unfold create_commits. apply respects_bind.
  - intros ra rb H. pose proof H as [Hg Ht].
    unfold check_tracking_branch, bind, get, lift_option, ret, raise, print, modify.
    rewrite Ht. destruct (tracking ra) as [b|]; simpl; [|by split].
    destruct (bool_decide _); simpl; [|by split].
    split; [|done]. by apply same_history_respected_print.
  - intros _. apply respects_import_outdated_entries.
    + by intros ra rb [? _].
    + apply same_history_respected_print.
    + by intros p d ra rb [(? & ? & ?) ?].
    + apply same_history_respected_commit.
    + by intros t paths ra rb [(? & ? & ?) ?].
Qed.

(** X15. The tracking-branch check only warns.  On a branch that tracks any
    remote branch, the run returns or raises what it would on a branch
    tracking [aosp/expected_upstream], and leaves the same commits, names,
    branch tip, live index and working tree. *)
Theorem create_commits_warning_only r manifest b :
  tracking r = Some b →
  (create_commits manifest r).2 = (create_commits manifest (on_expected_upstream r)).2
  ∧ same_files (create_commits manifest (on_expected_upstream r)).1
               (create_commits manifest r).1.
Proof.
  intros Hb.
  rewrite (create_commits_tracking_match (on_expected_upstream r)) by done.
  assert (∃ ra, create_commits manifest r = import_outdated_entries manifest ra
                ∧ same_files (on_expected_upstream r) ra) as (ra & -> & Hs).
  { destruct (decide (b = "aosp/expected_upstream"%string)) as [->|Hne].
    - exists r. split; [by apply create_commits_tracking_match|done].
    - exists (with_output (WarnTrackingBranch b) r).
      split; [by apply create_commits_tracking_mismatch|done]. }
  destruct (same_files_respected manifest (on_expected_upstream r) ra Hs) as [Hf Hr].
  by split.
Qed.

Lemma create_commits_warning_only_witness :
  (create_commits ex_group ex_repo_other_branch).2
  = (create_commits ex_group (on_expected_upstream ex_repo_other_branch)).2
  ∧ same_files (create_commits ex_group (on_expected_upstream ex_repo_other_branch)).1
               (create_commits ex_group ex_repo_other_branch).1.
Proof.
  apply (create_commits_warning_only ex_repo_other_branch ex_group "aosp/main").
  reflexivity.
Defined.


(** X17. The filter compares upstream with the tree of the branch tip and
    with nothing else: whatever is staged or checked out, it returns the same
    entries, or raises the same exception. *)
Theorem validate_and_remove_updated_entries_ignores_local r idx wt entries :
  (validate_and_remove_updated_entries entries (with_local idx wt r)).2
  = (validate_and_remove_updated_entries entries r).2.
Proof.
  destruct (respects_validate same_git (λ _ _ H, H) same_git_print
              entries r (with_local idx wt r)) as [_ Hr]; done.
Qed.

(** ** The history a run creates *)

Lemma tip_after_shift n h k : tip_after (n + 2) (S n) k = tip_after n h (S k).
Proof. destruct k; simpl; lia. Qed.

Lemma merge_loop_history r0 gs : ∀ r,
  extends r0 r →
  empty_commit_present r0 →
  is_Some (head_tree r) →
  Forall (λ g, ∃ ref, is_group ref g) gs →
  Forall (λ e, is_Some (source_blob r0 e)) (concat gs) →
  ∃ r', for_each gs merge_files_and_create_commit r = (r', Ok tt)
        ∧ extends r r'
        ∧ head r' = tip_after (length (odb r)) (head r) (length gs)
        ∧ ∀ k g, gs !! k = Some g →
            ∃ e0 up_id first second,
              g !! 0 = Some e0
              ∧ names r0 !! git_ref e0 = Some up_id
              ∧ odb r' !! (length (odb r) + 2 * k) = Some first
              ∧ parents first = [up_id]
              ∧ odb r' !! (length (odb r) + 2 * k + 1) = Some second
              ∧ parents second
                = [tip_after (length (odb r)) (head r) k; length (odb r) + 2 * k].
Proof.
  induction gs as [|g gs IH]; intros r Hext Hempty [t Ht] Hgs Hall.
  - exists r. split_and!; [done|apply extends_refl|done|]. by intros k g ?.
  - apply Forall_cons in Hgs as [[ref Hg] Hgs].
    simpl in Hall. apply Forall_app in Hall as [Hallg Hall].
    destruct (merge_group_Ok r ref g t Hg) as
      (up_id & up & prev_c & Hn & _ & _ & _ & _ & _ & Hrun);
      [by apply (resolves_extends r0 r)|by apply (empty_commit_present_extends r0 r)
      |done|].
    simpl in Hrun.
    set (first := first_commit_of up_id up ∅ ref g) in Hrun.
    set (second := second_commit_of (length (odb r)) first (head r) prev_c ref g) in Hrun.
    set (r1 := merged_repo r up first second g) in Hrun.
    destruct (IH r1) as (r' & Hloop & Hext' & Hhead & Hgraph); try done.
    { apply (extends_trans r0 r r1); [done|apply extends_merged_repo]. }
    { eexists. apply merged_repo_head_tree. }
    assert (length (odb r1) = length (odb r) + 2) as Hlen1.
    { unfold r1, merged_repo. simpl. rewrite length_app. simpl. lia. }
    assert (head r1 = S (length (odb r))) as Hhead1 by done.
    rewrite Hlen1, Hhead1 in Hhead, Hgraph.
    exists r'. split_and!.
    + simpl. by rewrite (bind_step _ _ _ _ _ Hrun).
    + apply (extends_trans r r1 r'); [apply extends_merged_repo|done].
    + rewrite Hhead. apply tip_after_shift.
    + intros k g' Hk. destruct k as [|k].
      * injection Hk as <-.
        destruct Hg as [Hne Href]. destruct g as [|e0 g]; [done|].
        apply Forall_cons in Href as [Href _].
        destruct Hext as (Hnames & _). destruct Hext' as (_ & _ & new & Hodb).
        exists e0, up_id, first, second. split_and!; try done.
        -- by rewrite Href, <- Hnames.
        -- rewrite Hodb. unfold r1, merged_repo. simpl.
           rewrite <- (assoc_L (++)), lookup_app_r by lia.
           by match goal with |- _ !! ?i = _ => replace i with 0 by lia end.
        -- rewrite Hodb. unfold r1, merged_repo. simpl.
           rewrite <- (assoc_L (++)), lookup_app_r by lia.
           by match goal with |- _ !! ?i = _ => replace i with 1 by lia end.
        -- simpl. do 2 f_equal. lia.
      * destruct (Hgraph k g' Hk)
          as (e0 & up_id' & first' & second' & He0 & Hn' & Hf & Hpf & Hs & Hps).
        exists e0, up_id', first', second'. split_and!; try done.
        -- by replace (length (odb r) + 2 * S k) with (length (odb r) + 2 + 2 * k) by lia.
        -- by replace (length (odb r) + 2 * S k + 1)
             with (length (odb r) + 2 + 2 * k + 1) by lia.
        -- rewrite Hps, (tip_after_shift _ (head r)).
           by replace (length (odb r) + 2 * S k) with (length (odb r) + 2 + 2 * k) by lia.
Qed.

(** A run on a branch that tracks something and has a tip, with every entry
    resolving, is the loop over the groups up to output. *)
Lemma create_commits_as_loop r manifest t b :
  tracking r = Some b →
  head_tree r = Some t →
  Forall (λ e, is_Some (source_blob r e)) manifest →
  let gs := partition_entries_by_ref (filter (needs_update r t) manifest) in
  ∃ rd, same_but_output r rd
        ∧ (create_commits manifest r).2
          = (for_each gs merge_files_and_create_commit rd).2
        ∧ same_but_output (for_each gs merge_files_and_create_commit rd).1
                          (create_commits manifest r).1.
Proof.
  intros Hb Ht Hall gs. unfold gs. clear gs.
  destruct (check_tracking_branch_run r b Hb) as (ra & Hcheck & Hsa & _).
  pose proof (same_but_output_same_git r ra Hsa) as Hga.
  unfold create_commits. rewrite (bind_step _ _ _ _ _ Hcheck).
  assert (head_tree ra = Some t) as Hta by (by rewrite (head_tree_same_git r ra)).
  pose proof (resolves_same_git r ra manifest Hga Hall) as Halla.
  destruct (decide (filter (needs_update r t) manifest = [])) as [Hnil|Hne].
  - rewrite Hnil. exists ra. split; [done|].
    rewrite (import_outdated_entries_up_to_date ra t); [done|done|done|].
    apply (up_to_date_same_git r ra); [done|].
    intros e He. apply not_needs_update. intros Hnu.
    assert (e ∈ filter (needs_update r t) manifest) as Hin
      by (by apply list_elem_of_filter).
    rewrite Hnil in Hin. by apply elem_of_nil in Hin.
  - destruct (import_outdated_entries_outdated ra manifest t Hta Halla)
      as (rd & Hsd & ->).
    { by rewrite (filter_needs_update_same_git r ra). }
    rewrite (filter_needs_update_same_git r ra t manifest Hga).
    exists rd. split_and!; [by apply (same_but_output_trans r ra rd)|done|done].
Qed.



(** ** How the filter fails *)


